(** * Endgame benchmark generator (endgame-benchmarks/tbgen.py)

    A shallow embedding of the [Generator] class of tbgen.py and the
    properties of its sampler, deduplicator and annotator.

    The chess rules engine (python-chess) and the two tablebases (Syzygy
    DTZ, Gaviota DTM) are external to the program; they appear here as
    interfaces ([RulesEngine], [Tablebases]).  The program's own logic,
    namely the rejection sampling loop, the key set, the classification
    of replies and the reconciliation of the two distances, is
    transcribed function by function. *)

From Stdlib Require Import ZArith String Ascii List Bool Lia.
From stdpp Require Import base option list gmap strings pretty.

Local Open Scope Z_scope.
#[local] Set Warnings "-clear-no-such-hyp".

(* ===================================================================== *)
(** * Python values: exceptions and results                               *)
(* ===================================================================== *)

(** The exceptions the program can raise by itself. *)
Inductive exn : Set :=
| AssertionError   (* a failed [assert] *)
| ValueError       (* [max()] of an empty sequence, unknown piece symbol *)
| OverflowError.   (* int / int too large for a float *)

(** Outcome of a call: a value, or an exception on its way up. *)
Inductive res (A : Type) : Type :=
| Ok (a : A)
| Raise (e : exn).
Arguments Ok {A} a.
Arguments Raise {A} e.

Definition is_ok {A} (r : res A) : bool :=
  match r with Ok _ => true | Raise _ => false end.

#[global] Instance exn_eq_dec : EqDecision exn.
Proof. solve_decision. Defined.

(* ===================================================================== *)
(** * [int((parent_dtm + 1) / 2)]: true division and truncation           *)
(* ===================================================================== *)

(** [/] on two Python ints is true division: the exact quotient, rounded
    once to the nearest binary64 value (ties to even).  Dividing by two
    only changes the exponent, so the quotient is the rounding of the
    numerator, halved.  [round_binary64 n] is the rounding of an integer
    [n >= 0] to 53 significant bits. *)
Definition round_binary64 (n : Z) : Z :=
  let e := Z.log2 n - 52 in
  if e <=? 0 then n
  else
    let q := n / 2 ^ e in
    let r := n mod 2 ^ e in
    let half := 2 ^ (e - 1) in
    let q' := if r <? half then q
              else if half <? r then q + 1
              else if Z.even q then q else q + 1 in
    q' * 2 ^ e.

(** [int(x / 2)]: the float quotient, truncated toward zero by [int()].
    A quotient of 2^1024 or more does not fit a float and raises. *)
Definition int_truediv2 (x : Z) : res Z :=
  let r := round_binary64 (Z.abs x) in
  if 2 ^ 1025 <=? r then Raise OverflowError
  else Ok (Z.quot (Z.sgn x * r) 2).

(** Division rounding toward positive infinity, for comparison. *)
Definition ceil_div (a b : Z) : Z := - ((- a) / b).

(* ===================================================================== *)
(** * The material signature: [re.match] and [chess.Piece.from_symbol]    *)
(* ===================================================================== *)

(** A Python [str] is a sequence of Unicode code points; a code point is
    held as its number.  [str s] is the Python string written [s]. *)
Definition str (s : string) : list N :=
  N_of_ascii <$> list_ascii_of_string s.

(** The fragment of regular expressions used by the program: a sequence
    of character classes, each taken once, one or more times, or zero or
    more times. *)
Inductive quant : Set := One | Plus | Star.

Definition regex : Type := list (list N * quant).

Definition in_class (cs : list N) (c : N) : bool :=
  existsb (N.eqb c) cs.

(** The backtracking matcher: [re] must match at the start of [s], and
    [final] decides whether the rest of [s] is acceptable.  Greedy, as
    Python's engine. *)
Fixpoint re_run (final : list N → bool) (re : regex) (s : list N)
    {struct re} : bool :=
  match re with
  | [] => final s
  | (cs, q) :: re' =>
      let star :=
        fix star (s : list N) : bool :=
          match s with
          | c :: s' =>
              if in_class cs c then star s' || re_run final re' s
              else re_run final re' s
          | [] => re_run final re' []
          end in
      match q with
      | One =>
          match s with
          | c :: s' => in_class cs c && re_run final re' s'
          | [] => false
          end
      | Plus =>
          match s with
          | c :: s' => in_class cs c && star s'
          | [] => false
          end
      | Star => star s
      end
  end.

(** [re.match(pattern, s)]: the pattern must match at the start of [s];
    nothing is required of what follows the match. *)
Definition re_match (re : regex) (s : list N) : bool :=
  re_run (λ _, true) re s.

(** [re.fullmatch(pattern, s)]: the match must consume all of [s]. *)
Definition re_fullmatch (re : regex) (s : list N) : bool :=
  re_run (λ rest, match rest with [] => true | _ => false end) re s.

Definition white_pieces : list N := str "QRBNP".
Definition black_pieces : list N := str "qrbnp".

(** r'K[QRBNP]+k[qrbnp]*' *)
Definition code_pattern : regex :=
  [ (str "K", One); (white_pieces, Plus);
    (str "k", One); (black_pieces, Star) ].

(** The shape the pattern describes, written out: one white king, one or
    more white pieces, one black king, zero or more black pieces, and
    nothing else. *)
Definition signature_shape (s : list N) : Prop :=
  ∃ ws bs : list N,
    s = str "K" ++ ws ++ str "k" ++ bs
    ∧ ws ≠ []
    ∧ Forall (λ c, in_class white_pieces c = true) ws
    ∧ Forall (λ c, in_class black_pieces c = true) bs.

Inductive PieceType : Set := PAWN | KNIGHT | BISHOP | ROOK | QUEEN | KING.

Record Piece : Set := mkPiece { piece_type : PieceType; color : bool }.

(** U+212A KELVIN SIGN. *)
Definition KELVIN_SIGN : N := 8490%N.

(** [symbol.lower()], as far as a lookup among the piece letters can
    tell: the letter of "pnbrqk" that the lower-cased symbol is, if it is
    one.  Among all code points that is the case of the six letters, of
    their capitals, and of the Kelvin sign, which [str.lower] maps to
    k. *)
Definition lower_piece_letter (c : N) : option N :=
  if in_class (str "pnbrqk") c then Some c
  else if in_class (str "PNBRQK") c then Some (c + 32)%N
  else if (c =? KELVIN_SIGN)%N then Some (N_of_ascii "k")
  else None.

(** [symbol.isupper()] for a symbol that has a piece letter: true of the
    capitals and of the Kelvin sign, false of the small letters. *)
Definition is_upper (c : N) : bool := negb (in_class (str "pnbrqk") c).

(** [PIECE_SYMBOLS.index(letter)], as a piece type. *)
Definition piece_type_of (letter : N) : option PieceType :=
  if (letter =? N_of_ascii "p")%N then Some PAWN
  else if (letter =? N_of_ascii "n")%N then Some KNIGHT
  else if (letter =? N_of_ascii "b")%N then Some BISHOP
  else if (letter =? N_of_ascii "r")%N then Some ROOK
  else if (letter =? N_of_ascii "q")%N then Some QUEEN
  else if (letter =? N_of_ascii "k")%N then Some KING
  else None.

(** [chess.Piece.from_symbol(symbol)], that is
    [Piece(PIECE_SYMBOLS.index(symbol.lower()), symbol.isupper())]: the
    lower-cased symbol is looked up among p, n, b, r, q, k ([ValueError]
    when absent); upper case is white. *)
Definition from_symbol (c : N) : res Piece :=
  match lower_piece_letter c with
  | None => Raise ValueError
  | Some letter =>
      match piece_type_of letter with
      | None => Raise ValueError
      | Some t => Ok (mkPiece t (is_upper c))
      end
  end.

(** The list comprehension [[from_symbol(x) for x in code]]: the first
    failure aborts it. *)
Fixpoint pieces_of (s : list N) : res (list Piece) :=
  match s with
  | [] => Ok []
  | c :: s' =>
      match from_symbol c with
      | Raise e => Raise e
      | Ok p =>
          match pieces_of s' with
          | Raise e => Raise e
          | Ok ps => Ok (p :: ps)
          end
      end
  end.

(* ===================================================================== *)
(** * The generator object                                                *)
(* ===================================================================== *)

(** The fields of [Generator] that the program owns.  The two tablebase
    handles are the [Tablebases] instance below.  [_id_format] is the
    template of [--id_format], as the function of [code] and [n] that
    [str.format] computes from it. *)
Record Generator : Type := mkGenerator {
  _code : list N;
  _pieces : list Piece;
  _id_format : list N → nat → string;
  _unique_boards : gset string;
  stats : gmap string nat
}.

(** [Generator.__init__]. *)
Definition __init__ (code : list N) (id_format : list N → nat → string)
  : res Generator :=
  if negb (re_match code_pattern code)
  then Raise AssertionError
  else
    match pieces_of code with
    | Raise e => Raise e
    | Ok ps =>
        Ok {| _code := code; _pieces := ps; _id_format := id_format;
              _unique_boards := ∅; stats := ∅ |}
    end.

(** [self.stats[key] += 1] on a [collections.Counter]. *)
Definition count (key : string) (g : Generator) : Generator :=
  {| _code := _code g; _pieces := _pieces g; _id_format := _id_format g;
     _unique_boards := _unique_boards g;
     stats := <[key := S (default 0%nat (stats g !! key))]> (stats g) |}.

(* ===================================================================== *)
(** * Boards, the rules engine and the tablebases                         *)
(* ===================================================================== *)

(** A [chess.Board] object.  [halfmove_clock] is the attribute the
    program reads and assigns; everything else the engine keeps in the
    object (pieces, turn, castling and en passant state, move stack) is
    [position]. *)
Record Board (Pos : Type) : Type := mkBoard {
  position : Pos;
  halfmove_clock : Z
}.
Arguments mkBoard {Pos} position halfmove_clock.
Arguments position {Pos} b.
Arguments halfmove_clock {Pos} b.

(** What the program calls on the rules engine. *)
Class RulesEngine (Pos Move : Type) : Type := {
  move_eq_dec :: EqDecision Move;
  (** [Board.empty()] followed by [set_piece_map] *)
  set_piece_map : gmap nat Piece → Pos;
  is_valid : Board Pos → bool;
  legal_moves : Board Pos → list Move;
  push : Board Pos → Move → Board Pos;
  pop : Board Pos → Board Pos;
  (** [is_game_over(claim_draw=True)] *)
  is_game_over : Board Pos → bool;
  is_checkmate : Board Pos → bool;
  fen : Board Pos → string
}.

(** The two oracles: Syzygy's distance to zeroing and Gaviota's distance
    to mate, both signed from the side to move. *)
Class Tablebases (Pos : Type) : Type := {
  probe_dtz : Board Pos → Z;
  probe_dtm : Board Pos → Z
}.

(** One pass of the sampling loop consumes one draw of the random
    module: what [random.sample] returns for a population and a size, and
    what [random.randint] returns for two bounds. *)
Record Draw : Type := mkDraw {
  sample : list nat → nat → list nat;
  randint : Z → Z → Z
}.

(** [chess.SQUARES] *)
Definition SQUARES : list nat := seq 0 64.

(** [dict(pairs)]: keys are inserted in order, a later pair replaces an
    earlier one with the same key. *)
Definition dict_of_pairs {V} (l : list (nat * V)) : gmap nat V :=
  foldl (λ m p, <[p.1 := p.2]> m) ∅ l.

(** A dict whose iteration order matters, as an association list in
    insertion order.  [d[k] = v] replaces the value of a key that is
    present and appends otherwise. *)
Fixpoint dict_set {K V} `{EqDecision K} (k : K) (v : V) (d : list (K * V))
  : list (K * V) :=
  match d with
  | [] => [(k, v)]
  | (k', v') :: d' =>
      if decide (k = k') then (k', v) :: d'
      else (k', v') :: dict_set k v d'
  end.

(** [max(xs)]: [ValueError] on an empty sequence. *)
Definition py_max (xs : list Z) : res Z :=
  match xs with
  | [] => Raise ValueError
  | x :: xs' => Ok (foldl Z.max x xs')
  end.

(** The annotations of one position ([epd_info]); an absent key is
    [None], and the valueless marker R50 is a flag. *)
Record EpdInfo (Move : Type) : Type := mkEpdInfo {
  epd_id : string;
  epd_hmvc : option Z;
  epd_bm : list Move;
  epd_am : option (list Move);
  epd_dm : Z;
  epd_R50 : bool
}.
Arguments mkEpdInfo {Move}.
Arguments epd_id {Move} e.
Arguments epd_hmvc {Move} e.
Arguments epd_bm {Move} e.
Arguments epd_am {Move} e.
Arguments epd_dm {Move} e.
Arguments epd_R50 {Move} e.

(* ===================================================================== *)
(** * Computations on a board object                                      *)
(* ===================================================================== *)

(** A method that works on a board mutates it and returns or raises: a
    state monad over the board with exceptions.  The state survives an
    exception, as the object does. *)
Definition M (S A : Type) : Type := S → S * res A.

Definition ret {S A} (a : A) : M S A := λ s, (s, Ok a).

Definition bind {S A B} (c : M S A) (k : A → M S B) : M S B :=
  λ s, match c s with
       | (s', Ok a) => k a s'
       | (s', Raise e) => (s', Raise e)
       end.

Definition gets {S A} (f : S → A) : M S A := λ s, (s, Ok (f s)).

Definition modify {S} (f : S → S) : M S unit := λ s, (f s, Ok tt).

Definition raise {S A} (e : exn) : M S A := λ s, (s, Raise e).

(** [assert cond] *)
Definition assert {S} (cond : bool) : M S unit :=
  if cond then ret tt else raise AssertionError.

(** A pure call that may raise. *)
Definition lift {S A} (r : res A) : M S A := λ s, (s, r).

(** [try: body finally: cleanup]: the cleanup runs on every exit of the
    body, and the body's outcome (value or exception) is the
    statement's, unless the cleanup raises itself. *)
Definition try_finally {S A} (body : M S A) (cleanup : M S unit) : M S A :=
  λ s, match body s with
       | (s1, r) =>
           match cleanup s1 with
           | (s2, Ok _) => (s2, r)
           | (s2, Raise e) => (s2, Raise e)
           end
       end.

Declare Scope py_scope.
Delimit Scope py_scope with py.
Notation "x <- c ;; k" := (bind c (λ x, k))
  (at level 100, c at next level, right associativity) : py_scope.
Notation "c ;; k" := (bind c (λ _, k))
  (at level 100, k at level 200, right associativity) : py_scope.

Section generator.
Context {Pos Move : Type} `{!RulesEngine Pos Move} `{!Tablebases Pos}.

Local Open Scope py_scope.

(** ** The annotator *)

(** [Generator._child_dtm_if_lost]: DTM after a move if the move is
    winning, otherwise [None]. *)
Definition _child_dtm_if_lost (move : Move) : M (Board Pos) (option Z) :=
  modify (λ board, push board move) ;;
  try_finally
    (over <- gets is_game_over ;;
     if over : bool then
       mate <- gets is_checkmate ;;
       ret (if mate : bool then Some 0 else None)
     else
       dtz <- gets probe_dtz ;;
       clock <- gets halfmove_clock ;;
       if negb ((clock - 100 <=? dtz) && (dtz <? 0)) then ret None
       else
         dtm <- gets probe_dtm ;;
         assert (dtm <? 0) ;;
         ret (Some dtm))
    (modify pop).

(** The dict comprehension
    [{move: self._child_dtm_if_lost(board, move) for move in legal_moves}],
    with the dict built so far as accumulator. *)
Fixpoint children_of (moves : list Move) (acc : list (Move * option Z))
  : M (Board Pos) (list (Move * option Z)) :=
  match moves with
  | [] => ret acc
  | move :: moves' =>
      dtm <- _child_dtm_if_lost move ;;
      children_of moves' (dict_set move dtm acc)
  end.

(** [Generator._annotate_board]. *)
Definition _annotate_board (self : Generator) : M (Board Pos) (EpdInfo Move) :=
  let id := _id_format self (_code self) (size (_unique_boards self)) in
  clock <- gets halfmove_clock ;;
  let hmvc := if clock =? 0 then None else Some clock in
  legal <- gets legal_moves ;;
  children_dtm <- children_of legal [] ;;
  best_child_dtm <- lift (py_max (omap snd children_dtm)) ;;
  let optimal_moves :=
    fst <$> filter (λ p, p.2 = Some best_child_dtm) children_dtm in
  let bad_moves := fst <$> filter (λ p, p.2 = None) children_dtm in
  let am := match bad_moves with [] => None | _ => Some bad_moves end in
  parent_dtm <- gets probe_dtm ;;
  assert ((0 <? parent_dtm) && (parent_dtm <=? 1 - best_child_dtm)) ;;
  dm <- lift (int_truediv2 (parent_dtm + 1)) ;;
  let r50 := parent_dtm <? 1 - best_child_dtm in
  ret (mkEpdInfo id hmvc optimal_moves am dm r50).

(** ** The sampler and the key set *)

(** [self._unique_boards.add(board_key)] *)
Definition add_key (key : string) (g : Generator) : Generator :=
  {| _code := _code g; _pieces := _pieces g; _id_format := _id_format g;
     _unique_boards := {[key]} ∪ _unique_boards g;
     stats := stats g |}.

(** One pass of the [while True] loop of [_generate_boards]: the new
    generator state, and the board if the pass reaches [yield]. *)
Definition loop_body (self : Generator) (rnd : Draw)
  : Generator * option (Board Pos) :=
  let squares := sample rnd SQUARES (length (_pieces self)) in
  let board :=
    mkBoard (set_piece_map (dict_of_pairs (zip squares (_pieces self)))) 0 in
  if negb (is_valid board) then (count "invalid" self, None)
  else
    let dtz := probe_dtz board in
    if negb ((0 <? dtz) && (dtz <=? 100)) then
      (count (if dtz <? 0 then "loss"
              else if dtz =? 0 then "draw"
              else "cursed_win") self, None)
    else
      let board := mkBoard (position board) (randint rnd 0 (100 - dtz)) in
      let board_key := fen board in
      if bool_decide (board_key ∈ _unique_boards self) then
        (count "duplicate" self, None)
      else
        (add_key board_key self, Some board).

(** [Generator._generate_boards] over a tape of draws: the boards it
    yields, in order, and the generator state when the tape ends.  The
    Python loop never ends; the tape bounds the number of passes. *)
Fixpoint _generate_boards (self : Generator) (tape : list Draw)
  : list (Board Pos) * Generator :=
  match tape with
  | [] => ([], self)
  | rnd :: tape' =>
      match loop_body self rnd with
      | (self', None) => _generate_boards self' tape'
      | (self', Some board) =>
          let '(boards, self'') := _generate_boards self' tape' in
          (board :: boards, self'')
      end
  end.

(** The next board the generator yields, with the tape and state left
    over; [None] when the tape ends first. *)
Fixpoint next_board (self : Generator) (tape : list Draw)
  : option (Board Pos * Generator * list Draw) :=
  match tape with
  | [] => None
  | rnd :: tape' =>
      match loop_body self rnd with
      | (self', None) => next_board self' tape'
      | (self', Some board) => Some (board, self', tape')
      end
  end.

(** [itertools.islice(generator.generate_epd(), n)]: each board is
    annotated before the next one is sampled.  The result is the list
    of annotated boards and how the run ended: [Ok true] after [n]
    records, [Ok false] when the tape ended first, or the exception. *)
Fixpoint generate_epd (n : nat) (self : Generator) (tape : list Draw)
  : list (Board Pos * EpdInfo Move) * res bool :=
  match n with
  | O => ([], Ok true)
  | S n' =>
      match next_board self tape with
      | None => ([], Ok false)
      | Some (board, self', tape') =>
          match _annotate_board self' board with
          | (_, Raise e) => ([], Raise e)
          | (board', Ok epd_info) =>
              let '(records, r) := generate_epd n' self' tape' in
              ((board', epd_info) :: records, r)
          end
      end
  end.

End generator.

(* ===================================================================== *)
(** * Vocabulary of the properties                                        *)
(* ===================================================================== *)

(** The language of a pattern: the strings it matches entirely. *)
Fixpoint lang (re : regex) (s : list N) : Prop :=
  match re with
  | [] => s = []
  | (cs, q) :: re' =>
      ∃ u v : list N,
        s = u ++ v
        ∧ Forall (λ c, in_class cs c = true) u
        ∧ match q with
          | One => length u = 1%nat
          | Plus => u ≠ []
          | Star => True
          end
        ∧ lang re' v
  end.

Section vocabulary.
Context {Pos Move : Type} `{!RulesEngine Pos Move} `{!Tablebases Pos}.

(** How the annotator classifies the reply [move] on [board]: the
    outcome of [_child_dtm_if_lost], [Ok (Some d)] for a winning reply
    with distance [d], [Ok None] for a losing one. *)
Definition classify (board : Board Pos) (move : Move) : res (option Z) :=
  (_child_dtm_if_lost move board).2.

(** The dict comprehension when every reply is classified on the same
    board [board]. *)
Fixpoint children_on (board : Board Pos) (moves : list Move)
    (acc : list (Move * option Z)) : res (list (Move * option Z)) :=
  match moves with
  | [] => Ok acc
  | move :: moves' =>
      match classify board move with
      | Ok dtm => children_on board moves' (dict_set move dtm acc)
      | Raise e => Raise e
      end
  end.

(** The bounded win-distance test of [_child_dtm_if_lost], on the
    board [after] the reply: the opponent loses, and the zeroing move
    comes within the 50-move allowance counted from that board's
    clock. *)
Definition within_budget (after : Board Pos) : Prop :=
  halfmove_clock after - 100 ≤ probe_dtz after < 0.

(** The reply ends the game by checkmate. *)
Definition mates (board : Board Pos) (move : Move) : Prop :=
  is_game_over (push board move) = true
  ∧ is_checkmate (push board move) = true.

(** The tablebases contradict each other on the reply: it passes the
    bounded win-distance test, and the mate distance of the resulting
    position is not negative. *)
Definition oracles_disagree (board : Board Pos) (move : Move) : Prop :=
  is_game_over (push board move) = false
  ∧ within_budget (push board move)
  ∧ 0 ≤ probe_dtm (push board move).

(** The engine undoes each legal move of [board] exactly. *)
Definition undo_exact (board : Board Pos) : Prop :=
  ∀ move, move ∈ legal_moves board → pop (push board move) = board.

(** [best] is the greatest distance among the winning replies. *)
Definition best_child (board : Board Pos) (best : Z) : Prop :=
  (∃ move, move ∈ legal_moves board
           ∧ classify board move = Ok (Some best))
  ∧ ∀ move d, move ∈ legal_moves board →
              classify board move = Ok (Some d) → d ≤ best.

(** The position is a win within the 50-move allowance, by the
    criterion of the program: DTZ positive and clock + DTZ at most
    100. *)
Definition confirmed_won (board : Board Pos) : Prop :=
  0 < probe_dtz board ≤ 100
  ∧ 0 ≤ halfmove_clock board
  ∧ halfmove_clock board + probe_dtz board ≤ 100.

(** The board the sampler builds from a draw, before the clock is
    chosen. *)
Definition placed_board (self : Generator) (rnd : Draw) : Board Pos :=
  mkBoard (set_piece_map
             (dict_of_pairs
                (zip (sample rnd SQUARES (length (_pieces self)))
                     (_pieces self)))) 0.

(** The DTZ tables do not look at the half-move clock. *)
Definition dtz_ignores_clock : Prop :=
  ∀ (p : Pos) (c c' : Z),
    probe_dtz (mkBoard p c) = probe_dtz (mkBoard p c').

End vocabulary.

(** The draw that differs from [rnd] in what [randint] returns: [clock]
    whenever the bounds allow it, the lower bound otherwise. *)
Definition draw_clock (rnd : Draw) (clock : Z) : Draw :=
  mkDraw (sample rnd)
         (λ lo hi, if (lo <=? clock) && (clock <=? hi) then clock else lo).

(** [random.randint(lo, hi)] returns an integer of [lo..hi]. *)
Definition randint_ok (rnd : Draw) : Prop :=
  ∀ lo hi : Z, lo ≤ hi → lo ≤ randint rnd lo hi ≤ hi.

(* ===================================================================== *)
(** * A scripted engine and scripted tablebases                           *)
(* ===================================================================== *)

(** A small stand-in for the rules engine and the two tablebases, with
    scripted answers, on which the functions above can be run.  Positions
    are numbered nodes of a game graph; as in python-chess, [push] saves
    the current state on the board's stack, advances the half-move clock
    by one or resets it after a zeroing move (capture or pawn move), and
    [pop] restores the saved state. *)
Module Stub.

Record Pos : Type := mkPos {
  node : Z;
  stack : list (Z * Z)
}.

Definition at_node (n clock : Z) : Board Pos :=
  mkBoard (mkPos n []) clock.

(** The moves of each node: move, resulting node, zeroing or not. *)
Definition moves (n : Z) : list (Z * (Z * bool)) :=
  match n with
  (* a slow reply at the edge of the 50-move budget *)
  | 10 => [(0, (11, false)); (1, (12, true))]
  (* a capture into a position exactly 100 plies from zeroing *)
  | 20 => [(0, (21, true))]
  (* the off-by-one case: every reply misses the budget *)
  | 30 => [(0, (31, false)); (1, (32, false))]
  (* a fast mate outside the budget, slower mates after a pawn move *)
  | 40 => [(0, (41, false)); (1, (42, true)); (2, (43, true));
           (3, (44, false)); (4, (45, true))]
  (* mate in one *)
  | 50 => [(0, (51, false)); (1, (52, false))]
  (* the tablebases disagree on a reply *)
  | 60 => [(0, (61, false)); (1, (62, false))]
  (* the tablebases disagree on the position itself *)
  | 70 => [(0, (71, false))]
  (* a parent distance of 2^54 + 1, beyond the exact floats *)
  | 80 => [(0, (81, false))]
  (* a parent distance of 2^53 + 2, the least one rounded upward *)
  | 90 => [(0, (91, false))]
  (* two sampled placements *)
  | 176 => [(0, (177, false))]
  | 160 => [(0, (164, false)); (1, (165, false))]
  | _ => []
  end.

Definition target (n m : Z) : Z * bool :=
  match list_find (λ e, e.1 = m) (moves n) with
  | Some (_, (_, t)) => t
  | None => (n, false)
  end.

Definition over (n : Z) : bool :=
  match n with
  | 44 | 51 => true
  | _ => false
  end.

Definition mate (n : Z) : bool :=
  match n with
  | 51 => true
  | _ => false
  end.

Definition dtz (n : Z) : Z :=
  match n with
  | 10 => 1 | 11 => -100 | 12 => -4
  | 20 => 1 | 21 => -100
  | 30 => 3 | 31 => -3 | 32 => 0
  | 40 => 1 | 41 => -14 | 42 => -20 | 43 => -22 | 45 => -20
  | 50 => 1 | 52 => -2
  | 60 => 3 | 61 => -2 | 62 => -2
  | 70 => 3 | 71 => -2
  | 80 => 1 | 81 => -1
  | 90 => 1 | 91 => -1
  (* sampled placements *)
  | 176 => 100 | 177 => -99
  | 160 => 7 | 164 => -6 | 165 => 0
  | 161 => -3 | 162 => 0 | 163 => 120
  | _ => 0
  end.

Definition dtm (n : Z) : Z :=
  match n with
  | 10 => 5 | 11 => -102 | 12 => -4
  | 20 => 105 | 21 => -104
  | 30 => 8 | 31 => -7 | 32 => 0
  | 40 => 15 | 41 => -14 | 42 => -20 | 43 => -22 | 45 => -20
  | 50 => 1 | 52 => -2
  | 60 => 3 | 61 => 3 | 62 => -2
  | 70 => 5 | 71 => -2
  | 80 => 18014398509481985 | 81 => -18014398509481984
  | 90 => 9007199254740994 | 91 => -9007199254740993
  | 176 => 101 | 177 => -100
  | 160 => 9 | 164 => -8
  | _ => 0
  end.

Definition valid (n : Z) : bool :=
  match n with
  | 176 | 160 | 161 | 162 | 163 => true
  | _ => false
  end.

(** A placement is numbered by 100 plus the sum of its squares. *)
Definition node_of (pm : gmap nat Piece) : Z :=
  100 + Z.of_nat (map_fold (λ sq _ acc, sq + acc)%nat 0%nat pm).

Definition stub_push (b : Board Pos) (m : Z) : Board Pos :=
  let n := node (position b) in
  let '(n', zeroing) := target n m in
  mkBoard (mkPos n' ((n, halfmove_clock b) :: stack (position b)))
          (if zeroing then 0 else halfmove_clock b + 1).

Definition stub_pop (b : Board Pos) : Board Pos :=
  match stack (position b) with
  | [] => b
  | (n, clock) :: st => mkBoard (mkPos n st) clock
  end.

Definition stub_fen (b : Board Pos) : string :=
  pretty (node (position b)) +:+ " w - - " +:+ pretty (halfmove_clock b).

#[global] Instance engine : RulesEngine Pos Z := {|
  set_piece_map pm := mkPos (node_of pm) [];
  is_valid b := valid (node (position b));
  legal_moves b := fst <$> moves (node (position b));
  push := stub_push;
  pop := stub_pop;
  is_game_over b := over (node (position b));
  is_checkmate b := mate (node (position b));
  fen := stub_fen
|}.

#[global] Instance tablebases : Tablebases Pos := {|
  probe_dtz b := dtz (node (position b));
  probe_dtm b := dtm (node (position b))
|}.

(** The default template '{code}.{n:06d}', without the zero padding,
    for a signature of ASCII letters. *)
Definition id_format (code : list N) (n : nat) : string :=
  string_of_list_ascii (ascii_of_N <$> code) +:+ "." +:+ pretty n.

(** A generator for king and queen against king, as [__init__] leaves
    it. *)
Definition kqk : Generator :=
  mkGenerator (str "KQk") [mkPiece KING true; mkPiece QUEEN true;
                           mkPiece KING false] id_format ∅ ∅.

(** The record expected for node 40 at clock 90: the fast mate (move
    0) is outside the budget, the pawn moves 1 and 4 mate in 21 plies. *)
Definition record_40 : EpdInfo Z :=
  mkEpdInfo "KQk.0" (Some 90) [1; 4] (Some [0; 3]) 8 true.


(** The record expected for node 90 at clock 0: the parent distance
    is 2^53 + 2, the successor 2^53 + 3 rounds to the float 2^53 + 4,
    and the field is 2^52 + 2. *)
Definition record_90 : EpdInfo Z :=
  mkEpdInfo "KQk.0" None [0] None 4503599627370498 false.

(** A draw that places the pieces on the given squares and takes the
    clock [skew] below the upper bound when the range allows it. *)
Definition draw (squares : list nat) (skew : Z) : Draw :=
  mkDraw (λ _ k, take k squares)
         (λ lo hi, Z.max lo (hi - skew)).

Definition tape : list Draw :=
  [ draw [0; 1; 2]%nat 0;       (* not a valid position *)
    draw [4; 12; 60]%nat 0;     (* DTZ 100 *)
    draw [4; 12; 60]%nat 5;     (* the same again *)
    draw [10; 20; 30]%nat 3;    (* DTZ 7 *)
    draw [10; 20; 31]%nat 0;    (* lost *)
    draw [10; 20; 32]%nat 0;    (* drawn *)
    draw [10; 20; 33]%nat 0;    (* cursed win *)
    draw [30; 20; 10]%nat 50 ]. (* DTZ 7 again, other clock *)

End Stub.

(* ===================================================================== *)
(** * Further vocabulary: signatures, counters, placements                *)
(* ===================================================================== *)

(** The symbols [chess.Piece.from_symbol] knows: the six letters, their
    capitals and the Kelvin sign. *)
Definition piece_symbols : list N := str "pnbrqkPNBRQK" ++ [KELVIN_SIGN].

(** A signature starts with a well-formed one: some prefix of it has the
    shape the pattern describes. *)
Definition shaped_prefix (s : list N) : Prop :=
  ∃ p rest : list N, s = p ++ rest ∧ signature_shape p.

#[global] Instance res_eq_dec {A} `{EqDecision A} : EqDecision (res A).
Proof. solve_decision. Defined.

(** [self.stats[key]]: a [Counter] reads 0 for a key it does not hold. *)
Definition counter (key : string) (g : Generator) : nat :=
  default 0%nat (stats g !! key).

(** [sum(self.stats.values())] *)
Definition stats_total (g : Generator) : nat :=
  map_fold (λ _ n acc, (n + acc)%nat) 0%nat (stats g).

(** The five reasons a pass of the sampling loop can count. *)
Definition rejection_keys : gset string :=
  {[ "invalid"; "loss"; "draw"; "cursed_win"; "duplicate" ]}.

(** The record expected from the scripted engine for node 50 at clock
    0, where move 0 checkmates. *)
Definition stub_record_50 : EpdInfo Z :=
  mkEpdInfo "KQk.0" None [0] None 1 false.

(** The draw of the scripted tape that places the pieces on squares 4,
    12 and 60. *)
Definition stub_draw_176 : Draw := Stub.draw [4; 12; 60]%nat 0.

Section placements.
Context {Pos Move : Type} `{!RulesEngine Pos Move} `{!Tablebases Pos}.

(** The reason for which the placement of a draw is rejected before its
    key is looked up, if it is: read off the first two tests of the
    loop. *)
Definition placement_reject (self : Generator) (rnd : Draw) : option string :=
  let board := placed_board self rnd in
  if negb (is_valid board) then Some "invalid"
  else if probe_dtz board <? 0 then Some "loss"
  else if probe_dtz board =? 0 then Some "draw"
  else if 100 <? probe_dtz board then Some "cursed_win"
  else None.

End placements.

(** Equations between concatenations, up to association. *)
Ltac solve_app := simpl; rewrite <- ?app_assoc; reflexivity.

(* ===================================================================== *)
(** * Properties                                                          *)
(* ===================================================================== *)

(** ** The float conversion *)

Lemma round_binary64_exact (n : Z) :
  0 ≤ n < 2 ^ 53 → round_binary64 n = n.
Proof.
  intros [Hge Hlt]. unfold round_binary64.
  assert (Z.log2 n < 53) as Hlog.
  { destruct (Z.eq_dec n 0) as [-> | Hne]; [reflexivity |].
    apply Z.log2_lt_pow2; lia. }
  destruct (Z.leb_spec (Z.log2 n - 52) 0); [reflexivity | lia].
Qed.

Lemma int_truediv2_exact (x : Z) :
  Z.abs x < 2 ^ 53 → int_truediv2 x = Ok (Z.quot x 2).
Proof.
  intros Hx. unfold int_truediv2.
  rewrite round_binary64_exact by lia.
  assert (2 ^ 53 ≤ 2 ^ 1025) by (apply Z.pow_le_mono_r; lia).
  destruct (Z.leb_spec (2 ^ 1025) (Z.abs x)); [lia |].
  f_equal. f_equal. destruct x; simpl; lia.
Qed.


Lemma int_truediv2_raises (x : Z) (e : exn) :
  int_truediv2 x = Raise e → e = OverflowError ∧ 2 ^ 53 ≤ Z.abs x.
Proof.
  intros Hr. destruct (Z.lt_ge_cases (Z.abs x) (2 ^ 53)) as [Hlt | Hge].
  - rewrite int_truediv2_exact in Hr by done. discriminate.
  - unfold int_truediv2 in Hr.
    destruct (2 ^ 1025 <=? round_binary64 (Z.abs x)); [| discriminate].
    injection Hr as <-. done.
Qed.


(** ** The material signature *)

Lemma in_class_singleton (a c : N) :
  in_class [a] c = true ↔ c = a.
Proof.
  unfold in_class. simpl. rewrite orb_false_r. apply N.eqb_eq.
Qed.

(** The greedy loop of a starred class, for any continuation [k] with
    language [L]. *)
Lemma star_spec (cs : list N) (k : list N → bool)
    (L : list N → Prop) (Hk : ∀ s, k s = true ↔ L s) (s : list N) :
  (fix star (s : list N) : bool :=
     match s with
     | c :: s' => if in_class cs c then star s' || k s else k s
     | [] => k []
     end) s = true
  ↔ ∃ u v, s = u ++ v ∧ Forall (λ c, in_class cs c = true) u ∧ L v.
Proof.
  induction s as [| c s IH].
  - rewrite Hk. split.
    + intros HL. exists [], []. auto.
    + intros (u & v & Huv & _ & HL).
      symmetry in Huv. apply app_eq_nil in Huv as [-> ->]. exact HL.
  - destruct (in_class cs c) eqn:Hc.
    + rewrite orb_true_iff, IH, Hk. split.
      * intros [(u & v & -> & Hu & HL) | HL].
        -- exists (c :: u), v. repeat split; auto.
        -- exists [], (c :: s). auto.
      * intros (u & v & Huv & Hu & HL). destruct u as [| c' u].
        -- right. simpl in Huv. by subst v.
        -- left. simpl in Huv. injection Huv as <- ->.
           exists u, v. repeat split; auto. by eapply Forall_inv_tail.
    + rewrite Hk. split.
      * intros HL. exists [], (c :: s). auto.
      * intros (u & v & Huv & Hu & HL). destruct u as [| c' u].
        -- simpl in Huv. by subst v.
        -- simpl in Huv. injection Huv as <- ->.
           apply Forall_inv in Hu. congruence.
Qed.

Lemma re_run_spec (final : list N → bool) (re : regex) :
  ∀ s, re_run final re s = true
       ↔ ∃ p r, s = p ++ r ∧ lang re p ∧ final r = true.
Proof.
  induction re as [| [cs q] re IH]; intros s.
  - simpl. split.
    + intros Hf. exists [], s. auto.
    + intros (p & r & -> & -> & Hf). exact Hf.
  - pose proof (star_spec cs (re_run final re) _ IH) as Hstar.
    destruct q; simpl.
    + (* One *)
      destruct s as [| c s].
      * split; [discriminate |].
        intros (p & r & Hpr & (u & v & -> & _ & Hlen & _) & _).
        destruct u; [discriminate | discriminate].
      * rewrite andb_true_iff, IH. split.
        -- intros (Hc & p & r & -> & Hp & Hf).
           exists (c :: p), r. repeat split; auto.
           exists [c], p. repeat split; auto.
        -- intros (p & r & Hpr & (u & v & -> & Hu & Hlen & Hv) & Hf).
           destruct u as [| c' [| ? ?]]; try discriminate.
           simpl in Hpr. injection Hpr as <- ->.
           split; [by apply Forall_inv in Hu |]. exists v, r. auto.
    + (* Plus *)
      destruct s as [| c s].
      * split; [discriminate |].
        intros (p & r & Hpr & (u & v & -> & _ & Hne & _) & _).
        destruct u; [done | discriminate].
      * rewrite andb_true_iff, Hstar. split.
        -- intros (Hc & u & v & -> & Hu & p & r & -> & Hp & Hf).
           exists (c :: u ++ p), r. split; [solve_app |].
           split; [| done].
           exists (c :: u), p. repeat split; auto.
        -- intros (p & r & Hpr & (u & v & -> & Hu & Hne & Hv) & Hf).
           destruct u as [| c' u]; [done |].
           simpl in Hpr. injection Hpr as <- ->.
           split; [by apply Forall_inv in Hu |].
           exists u, (v ++ r). split; [solve_app |].
           split; [by eapply Forall_inv_tail |]. exists v, r. auto.
    + (* Star *)
      rewrite Hstar. split.
      * intros (u & v & -> & Hu & p & r & -> & Hp & Hf).
        exists (u ++ p), r. split; [solve_app |].
        split; [| done]. exists u, p. auto.
      * intros (p & r & -> & (u & v & -> & Hu & _ & Hv) & Hf).
        exists u, (v ++ r). split; [solve_app |].
        split; [done |]. exists v, r. auto.
Qed.

Lemma re_match_spec (re : regex) (s : list N) :
  re_match re s = true ↔ ∃ p r, s = p ++ r ∧ lang re p.
Proof.
  unfold re_match. rewrite re_run_spec. split.
  - intros (p & r & ? & ? & _). eauto.
  - intros (p & r & ? & ?). exists p, r. auto.
Qed.

Lemma re_fullmatch_spec (re : regex) (s : list N) :
  re_fullmatch re s = true ↔ lang re s.
Proof.
  unfold re_fullmatch. rewrite re_run_spec. split.
  - intros (p & r & -> & Hp & Hr). destruct r; [| discriminate].
    by rewrite app_nil_r.
  - intros Hs. exists s, []. by rewrite app_nil_r.
Qed.

(** The shape with the two kings as list heads. *)
Lemma signature_shape_cons (s : list N) :
  signature_shape s
  ↔ ∃ ws bs : list N,
      s = N_of_ascii "K" :: ws ++ N_of_ascii "k" :: bs
      ∧ ws ≠ []
      ∧ Forall (λ c, in_class white_pieces c = true) ws
      ∧ Forall (λ c, in_class black_pieces c = true) bs.
Proof. reflexivity. Qed.

Lemma signature_shape_lang (s : list N) :
  signature_shape s ↔ lang code_pattern s.
Proof.
  rewrite signature_shape_cons. unfold code_pattern. cbn [lang].
  change (str "K") with [N_of_ascii "K"].
  change (str "k") with [N_of_ascii "k"]. split.
  - intros (ws & bs & -> & Hne & Hws & Hbs).
    assert (∀ a, Forall (λ c, in_class [a] c = true) [a]) as Hone.
    { intros a. constructor; [by apply in_class_singleton | constructor]. }
    exists [N_of_ascii "K"], (ws ++ N_of_ascii "k" :: bs).
    split_and!; [done || apply Hone .. |].
    exists ws, (N_of_ascii "k" :: bs). split_and!; [done.. |].
    exists [N_of_ascii "k"], bs. split_and!; [done || apply Hone .. |].
    exists bs, []. by rewrite app_nil_r.
  - intros (u1 & v1 & -> & Hu1 & Hl1 & u2 & v2 & -> & Hu2 & Hne
            & u3 & v3 & -> & Hu3 & Hl3 & u4 & v4 & -> & Hu4 & _ & ->).
    destruct u1 as [| c1 [| ? ?]]; try discriminate.
    destruct u3 as [| c3 [| ? ?]]; try discriminate.
    apply Forall_inv in Hu1. apply in_class_singleton in Hu1 as ->.
    apply Forall_inv in Hu3. apply in_class_singleton in Hu3 as ->.
    exists u2, u4. rewrite app_nil_r. auto.
Qed.

Lemma signature_shape_fullmatch (s : list N) :
  signature_shape s ↔ re_fullmatch code_pattern s = true.
Proof. by rewrite signature_shape_lang, re_fullmatch_spec. Qed.

Lemma pieces_of_ok (s : list N) :
  is_ok (pieces_of s) = true ↔ Forall (λ c, is_ok (from_symbol c) = true) s.
Proof.
  induction s as [| c s IH]; simpl.
  - split; auto.
  - rewrite Forall_cons, <- IH.
    destruct (from_symbol c), (pieces_of s); simpl; intuition congruence.
Qed.

Lemma white_piece_symbol (c : N) :
  in_class white_pieces c = true → is_ok (from_symbol c) = true.
Proof.
  unfold in_class, white_pieces. simpl.
  rewrite !orb_true_iff, !N.eqb_eq.
  intros H. repeat (destruct H as [-> | H]; [reflexivity |]). discriminate.
Qed.

Lemma black_piece_symbol (c : N) :
  in_class black_pieces c = true → is_ok (from_symbol c) = true.
Proof.
  unfold in_class, black_pieces. simpl.
  rewrite !orb_true_iff, !N.eqb_eq.
  intros H. repeat (destruct H as [-> | H]; [reflexivity |]). discriminate.
Qed.

(** [__init__] succeeds exactly when the pattern matches at the start of
    the signature and every character is a piece symbol. *)
Lemma init_ok_iff (code : list N) (id_format : list N → nat → string) :
  is_ok (__init__ code id_format) = true
  ↔ re_match code_pattern code = true
    ∧ is_ok (pieces_of code) = true.
Proof.
  unfold __init__.
  destruct (re_match code_pattern code); simpl.
  - destruct (pieces_of code); simpl; intuition congruence.
  - intuition congruence.
Qed.

(** Every signature of the intended shape is accepted. *)
Lemma init_accepts_shape (code : list N) (id_format : list N → nat → string) :
  signature_shape code →
  is_ok (__init__ code id_format) = true.
Proof.
  intros Hshape. apply init_ok_iff. split.
  - apply re_match_spec. exists code, [].
    rewrite app_nil_r. split; [done |]. by apply signature_shape_lang.
  - apply pieces_of_ok.
    apply signature_shape_cons in Hshape as (ws & bs & -> & _ & Hws & Hbs).
    constructor; [reflexivity |]. apply Forall_app. split.
    + eapply Forall_impl; [exact Hws |]. apply white_piece_symbol.
    + constructor; [reflexivity |].
      eapply Forall_impl; [exact Hbs |]. apply black_piece_symbol.
Qed.

(** A signature the pattern does not match at its start is refused with
    an assertion failure. *)
Lemma init_rejects_no_match (code : list N) (id_format : list N → nat → string) :
  re_match code_pattern code = false →
  __init__ code id_format = Raise AssertionError.
Proof. intros H. unfold __init__. by rewrite H. Qed.

(** C10 (as the code behaves): the pattern is matched with [re.match],
    which does not anchor the end of the string, so a signature that
    continues after a well-formed prefix is accepted as long as its
    characters are piece symbols.  "KQkk" (a second black king) and
    "KQkQ" (a white queen after the black king) are not of the shape
    king, white pieces, king, black pieces, and the constructor
    succeeds on both. *)
Theorem init_accepts_trailing_piece (id_format : list N → nat → string) :
  (¬ signature_shape (str "KQkk")
   ∧ is_ok (__init__ (str "KQkk") id_format) = true)
  ∧ (¬ signature_shape (str "KQkQ")
     ∧ is_ok (__init__ (str "KQkQ") id_format) = true).
Proof.
  split; split.
  - rewrite signature_shape_fullmatch. vm_compute. discriminate.
  - apply init_ok_iff. split; vm_compute; reflexivity.
  - rewrite signature_shape_fullmatch. vm_compute. discriminate.
  - apply init_ok_iff. split; vm_compute; reflexivity.
Qed.

(** ** Dicts in insertion order and [max] *)

Lemma dict_set_keys {K V} `{EqDecision K} (k : K) (v : V) (d : list (K * V)) :
  (dict_set k v d).*1 = if decide (k ∈ d.*1) then d.*1 else d.*1 ++ [k].
Proof.
  induction d as [| [k0 v0] d IH]; cbn [dict_set].
  - rewrite decide_False; [done |]. apply not_elem_of_nil.
  - destruct (decide (k = k0)) as [-> | Hne]; rewrite !fmap_cons; cbn [fst].
    + rewrite decide_True by left. done.
    + rewrite IH. destruct (decide (k ∈ d.*1)) as [Hin | Hnin].
      * rewrite decide_True by (by right). done.
      * rewrite decide_False; [done |].
        intros [? | ?]%elem_of_cons; done.
Qed.

Lemma dict_set_NoDup {K V} `{EqDecision K} (k : K) (v : V) (d : list (K * V)) :
  NoDup d.*1 → NoDup (dict_set k v d).*1.
Proof.
  intros Hnd. rewrite dict_set_keys. case_decide as Hin; [done |].
  apply NoDup_app. split_and!; [done | | apply NoDup_singleton].
  intros x Hx ->%list_elem_of_singleton. done.
Qed.

Lemma elem_of_dict_set {K V} `{EqDecision K} (k k' : K) (v v' : V)
    (d : list (K * V)) :
  NoDup d.*1 →
  (k', v') ∈ dict_set k v d
  ↔ (k' = k ∧ v' = v) ∨ (k' ≠ k ∧ (k', v') ∈ d).
Proof.
  induction d as [| [k0 v0] d IH]; simpl; intros Hnd.
  - rewrite list_elem_of_singleton. split.
    + intros [= -> ->]. by left.
    + intros [[-> ->] | [_ Hin]]; [done | by apply elem_of_nil in Hin].
  - apply NoDup_cons in Hnd as [Hk0 Hnd].
    destruct (decide (k = k0)) as [-> | Hne].
    + rewrite !elem_of_cons. split.
      * intros [[= -> ->] | Hin]; [by left |]. right. split; [| by right].
        intros ->. apply Hk0. apply list_elem_of_fmap. by exists (k0, v').
      * intros [[-> ->] | [Hne [[= -> ->] | Hin]]]; [by left | done | by right].
    + rewrite !elem_of_cons, IH by done. split.
      * intros [[= -> ->] | [[-> ->] | [Hne' Hin]]].
        -- right. split; [congruence | by left].
        -- by left.
        -- right. split; [done | by right].
      * intros [[-> ->] | [Hne' [[= -> ->] | Hin]]].
        -- right. by left.
        -- by left.
        -- right. right. done.
Qed.

Lemma foldl_max_spec (xs : list Z) :
  ∀ x, (foldl Z.max x xs = x ∨ foldl Z.max x xs ∈ xs)
       ∧ x ≤ foldl Z.max x xs
       ∧ ∀ y, y ∈ xs → y ≤ foldl Z.max x xs.
Proof.
  induction xs as [| a xs IH]; intros x; simpl.
  - split_and!; [by left | lia |]. intros y Hy. by apply elem_of_nil in Hy.
  - destruct (IH (Z.max x a)) as (Hin & Hle & Hall). split_and!.
    + destruct Hin as [Heq | Hin]; [| right; by right].
      rewrite Heq. destruct (Z.max_spec x a) as [[_ ->] | [_ ->]].
      * right. by left.
      * by left.
    + lia.
    + intros y [-> | Hy]%elem_of_cons; [lia | by apply Hall].
Qed.

Lemma py_max_ok (xs : list Z) (best : Z) :
  py_max xs = Ok best → best ∈ xs ∧ ∀ y, y ∈ xs → y ≤ best.
Proof.
  destruct xs as [| x xs]; simpl; [discriminate |]. intros [= <-].
  destruct (foldl_max_spec xs x) as (Hin & Hle & Hall). split.
  - destruct Hin as [-> | Hin]; [by left | by right].
  - intros y [-> | Hy]%elem_of_cons; [done | by apply Hall].
Qed.

Lemma py_max_raise (xs : list Z) (e : exn) :
  py_max xs = Raise e → xs = [] ∧ e = ValueError.
Proof. destruct xs; simpl; [intros [= <-]; done | discriminate]. Qed.

Lemma py_max_nonempty (xs : list Z) :
  xs ≠ [] → ∃ best, py_max xs = Ok best.
Proof. destruct xs; [done | eauto]. Qed.

(** ** The annotator *)

Section annotator_properties.
Context {Pos Move : Type} `{!RulesEngine Pos Move} `{!Tablebases Pos}.
Implicit Types (board after : Board Pos) (move : Move).

(** One call of [_child_dtm_if_lost], run to the end: the board it
    leaves and the outcome, read off the board after the move. *)
Lemma child_run board move :
  _child_dtm_if_lost move board =
  (pop (push board move),
   let after := push board move in
   if is_game_over after then
     Ok (if is_checkmate after then Some 0 else None)
   else if negb ((halfmove_clock after - 100 <=? probe_dtz after)
                 && (probe_dtz after <? 0)) then Ok None
   else if probe_dtm after <? 0 then Ok (Some (probe_dtm after))
   else Raise AssertionError).
Proof.
  unfold _child_dtm_if_lost, try_finally, bind, modify, gets, assert, ret,
    raise.
  cbn beta iota zeta.
  destruct (is_game_over (push board move)); [reflexivity |].
  destruct (negb _); [reflexivity |].
  destruct (probe_dtm (push board move) <? 0); reflexivity.
Qed.

Lemma child_board board move :
  (_child_dtm_if_lost move board).1 = pop (push board move).
Proof. by rewrite child_run. Qed.

Lemma within_budget_test after :
  (halfmove_clock after - 100 <=? probe_dtz after) && (probe_dtz after <? 0)
  = true ↔ within_budget after.
Proof.
  unfold within_budget. rewrite andb_true_iff, Z.leb_le, Z.ltb_lt. tauto.
Qed.

(** [classify] by cases on the board after the move. *)
Lemma classify_game_over board move :
  is_game_over (push board move) = true →
  classify board move =
  Ok (if is_checkmate (push board move) then Some 0 else None).
Proof. intros H. unfold classify. rewrite child_run. simpl. by rewrite H. Qed.

Lemma classify_out_of_budget board move :
  is_game_over (push board move) = false →
  ¬ within_budget (push board move) →
  classify board move = Ok None.
Proof.
  intros Hover Hb. unfold classify. rewrite child_run. simpl.
  rewrite Hover. rewrite <- within_budget_test in Hb.
  apply not_true_is_false in Hb. by rewrite Hb.
Qed.

Lemma classify_in_budget board move :
  is_game_over (push board move) = false →
  within_budget (push board move) →
  classify board move =
  if probe_dtm (push board move) <? 0
  then Ok (Some (probe_dtm (push board move)))
  else Raise AssertionError.
Proof.
  intros Hover Hb. unfold classify. rewrite child_run. simpl.
  rewrite Hover. apply within_budget_test in Hb. by rewrite Hb.
Qed.

Lemma within_budget_dec after :
  within_budget after ∨ ¬ within_budget after.
Proof. unfold within_budget. lia. Qed.

(** The reply is classified winning with distance [d] exactly when it
    mates ([d = 0]) or the game goes on, the bounded test passes and the
    mate distance [d] is negative. *)
Lemma classify_winning board move d :
  classify board move = Ok (Some d)
  ↔ (mates board move ∧ d = 0)
    ∨ (is_game_over (push board move) = false
       ∧ within_budget (push board move)
       ∧ probe_dtm (push board move) < 0
       ∧ d = probe_dtm (push board move)).
Proof.
  unfold mates.
  destruct (is_game_over (push board move)) eqn:Hover.
  - rewrite classify_game_over by done.
    destruct (is_checkmate (push board move)); split.
    + intros [= <-]. left. done.
    + intros [[_ ->] | (? & _)]; [done | discriminate].
    + discriminate.
    + intros [[[_ ?] _] | (? & _)]; discriminate.
  - destruct (within_budget_dec (push board move)) as [Hb | Hb].
    + rewrite classify_in_budget by done.
      destruct (Z.ltb_spec (probe_dtm (push board move)) 0); split.
      * intros [= <-]. right. done.
      * intros [[[? _] _] | (_ & _ & _ & ->)]; [discriminate | done].
      * discriminate.
      * intros [[[? _] _] | (_ & _ & ? & _)]; [discriminate | lia].
    + rewrite classify_out_of_budget by done. split; [discriminate |].
      intros [[[? _] _] | (_ & ? & _)]; [discriminate | done].
Qed.

(** It is classified losing exactly when the game ends without
    checkmate or the game goes on and the bounded test fails. *)
Lemma classify_losing board move :
  classify board move = Ok None
  ↔ (is_game_over (push board move) = true
     ∧ is_checkmate (push board move) = false)
    ∨ (is_game_over (push board move) = false
       ∧ ¬ within_budget (push board move)).
Proof.
  destruct (is_game_over (push board move)) eqn:Hover.
  - rewrite classify_game_over by done.
    destruct (is_checkmate (push board move)); split.
    + discriminate.
    + intros [[_ ?] | [? _]]; discriminate.
    + intros _. left. done.
    + done.
  - destruct (within_budget_dec (push board move)) as [Hb | Hb].
    + rewrite classify_in_budget by done.
      destruct (probe_dtm (push board move) <? 0); split;
        try discriminate; intros [[? _] | [_ ?]]; done.
    + rewrite classify_out_of_budget by done. split; [| done].
      intros _. right. done.
Qed.

(** It is not classified at all, and the assertion fails, exactly when
    the tablebases disagree on it; no other exception arises. *)
Lemma classify_raises board move e :
  classify board move = Raise e
  ↔ e = AssertionError ∧ oracles_disagree board move.
Proof.
  unfold oracles_disagree.
  destruct (is_game_over (push board move)) eqn:Hover.
  - rewrite classify_game_over by done. split; [discriminate |].
    intros (_ & ? & _). discriminate.
  - destruct (within_budget_dec (push board move)) as [Hb | Hb].
    + rewrite classify_in_budget by done.
      destruct (Z.ltb_spec (probe_dtm (push board move)) 0); split.
      * discriminate.
      * intros (_ & _ & _ & ?). lia.
      * intros [= <-]. done.
      * intros (-> & _). done.
    + rewrite classify_out_of_budget by done. split; [discriminate |].
      intros (_ & _ & ? & _). done.
Qed.

(** With an exact undo, the call leaves the board as it found it. *)
Lemma child_restores board move :
  pop (push board move) = board →
  _child_dtm_if_lost move board = (board, classify board move).
Proof.
  intros Hundo. unfold classify.
  rewrite (surjective_pairing (_child_dtm_if_lost move board)) at 1.
  by rewrite child_board, Hundo.
Qed.

(** The comprehension then classifies every reply on the same board. *)
Lemma children_of_on board moves :
  (∀ move, move ∈ moves → pop (push board move) = board) →
  ∀ acc, children_of moves acc board = (board, children_on board moves acc).
Proof.
  induction moves as [| move moves IH]; intros Hundo acc; [reflexivity |].
  cbn [children_of children_on]. unfold bind.
  rewrite child_restores by (apply Hundo; left).
  destruct (classify board move); [| reflexivity].
  apply IH. intros m Hm. apply Hundo. by right.
Qed.

Lemma children_on_ok board moves :
  ∀ acc d,
    NoDup acc.*1 →
    children_on board moves acc = Ok d →
    NoDup d.*1
    ∧ (∀ k w, (k, w) ∈ d
              ↔ (k ∈ moves ∧ classify board k = Ok w)
                ∨ ((k ∉ moves) ∧ (k, w) ∈ acc)).
Proof.
  induction moves as [| move moves IH]; intros acc d Hnd; cbn [children_on].
  - intros [= <-]. split; [done |]. intros k w. split.
    + intros Hin. right. split; [apply not_elem_of_nil | done].
    + intros [[Hin _] | [_ Hin]]; [by apply elem_of_nil in Hin | done].
  - destruct (classify board move) as [v |] eqn:Hv; [| discriminate].
    intros Hd.
    destruct (IH _ _ (dict_set_NoDup move v acc Hnd) Hd) as [Hnd' Hin].
    split; [done |]. intros k w. rewrite Hin, elem_of_dict_set by done.
    rewrite elem_of_cons.
    destruct (decide (k = move)) as [-> | Hne].
    + rewrite Hv. clear IH Hin Hd.
      destruct (decide (move ∈ moves)); intuition congruence.
    + clear IH Hin Hd. intuition congruence.
Qed.

(** The comprehension completes exactly when no reply raises; it
    raises, with the assertion failure, exactly when some reply does. *)
Lemma children_on_cases board moves :
  ∀ acc,
    (∃ d, children_on board moves acc = Ok d
          ∧ ∀ move, move ∈ moves → ¬ oracles_disagree board move)
    ∨ (children_on board moves acc = Raise AssertionError
       ∧ ∃ move, move ∈ moves ∧ oracles_disagree board move).
Proof.
  induction moves as [| move moves IH]; intros acc; cbn [children_on].
  - left. exists acc. split; [done |]. intros m Hm.
    by apply elem_of_nil in Hm.
  - destruct (classify board move) as [v | e] eqn:Hv.
    + destruct (IH (dict_set move v acc)) as [(d & Hd & Hall) | (Hr & m & Hm & Hdis)].
      * left. exists d. split; [done |].
        intros m [-> | Hm]%elem_of_cons; [| by apply Hall].
        intros Hdis. assert (classify board move = Raise AssertionError)
          as Hr by (by apply classify_raises). congruence.
      * right. split; [done |]. exists m. split; [by right | done].
    + apply classify_raises in Hv as [-> Hdis].
      right. split; [done |]. exists move. split; [by left | done].
Qed.

End annotator_properties.

Section annotation_properties.
Context {Pos Move : Type} `{!RulesEngine Pos Move} `{!Tablebases Pos}.
Implicit Types (board after : Board Pos) (move : Move) (self : Generator).

(** [_annotate_board] run to the end, on a board whose legal moves the
    engine undoes exactly: the board is left as it was, and the outcome
    is decided in this order: the replies, [max], the assertion on the
    parent distance, the conversion to full moves. *)
Lemma annotate_run self board :
  undo_exact board →
  _annotate_board self board =
  (board,
   match children_on board (legal_moves board) [] with
   | Raise e => Raise e
   | Ok children =>
       match py_max (omap snd children) with
       | Raise e => Raise e
       | Ok best =>
           if (0 <? probe_dtm board) && (probe_dtm board <=? 1 - best) then
             match int_truediv2 (probe_dtm board + 1) with
             | Raise e => Raise e
             | Ok dm =>
                 Ok (mkEpdInfo
                       (_id_format self (_code self)
                          (size (_unique_boards self)))
                       (if halfmove_clock board =? 0 then None
                        else Some (halfmove_clock board))
                       (filter (λ p, p.2 = Some best) children).*1
                       (let bad := (filter (λ p, p.2 = None) children).*1 in
                        match bad with [] => None | _ => Some bad end)
                       dm
                       (probe_dtm board <? 1 - best))
             end
           else Raise AssertionError
       end
   end).
Proof.
  intros Hundo. unfold _annotate_board, bind, gets, lift, assert, ret, raise.
  cbn beta iota zeta. rewrite children_of_on by exact Hundo.
  destruct (children_on board (legal_moves board) []) as [children |];
    [| reflexivity].
  destruct (py_max (omap snd children)) as [best |]; [| reflexivity].
  destruct ((0 <? probe_dtm board) && (probe_dtm board <=? 1 - best));
    [| reflexivity].
  destruct (int_truediv2 (probe_dtm board + 1)); reflexivity.
Qed.

(** The entries of the finished dict are the legal moves with their
    classification. *)
Lemma children_entries board children move w :
  children_on board (legal_moves board) [] = Ok children →
  (move, w) ∈ children
  ↔ move ∈ legal_moves board ∧ classify board move = Ok w.
Proof.
  intros Hc.
  destruct (children_on_ok board (legal_moves board) [] children)
    as [_ Hin]; [apply NoDup_nil_2 | done |].
  rewrite Hin. split; [| by left].
  intros [? | [_ Hnil]]; [done | by apply elem_of_nil in Hnil].
Qed.

Lemma winning_values board children d :
  children_on board (legal_moves board) [] = Ok children →
  d ∈ omap snd children
  ↔ ∃ move, move ∈ legal_moves board ∧ classify board move = Ok (Some d).
Proof.
  intros Hc. rewrite list_elem_of_omap. split.
  - intros ([m w] & Hin & Hw). simpl in Hw. subst w.
    exists m. by apply (children_entries _ _ _ _ Hc).
  - intros (m & Hm & Hcl). exists (m, Some d). split; [| done].
    by apply (children_entries _ _ _ _ Hc).
Qed.

Lemma children_best board children best :
  children_on board (legal_moves board) [] = Ok children →
  py_max (omap snd children) = Ok best →
  best_child board best.
Proof.
  intros Hc [Hin Hmax]%py_max_ok. split.
  - by apply (winning_values _ _ _ Hc).
  - intros m d Hm Hd. apply Hmax. apply (winning_values _ _ _ Hc). eauto.
Qed.

Lemma best_child_unique board x y :
  best_child board x → best_child board y → x = y.
Proof.
  intros [(mx & Hmx & Hx) Hxmax] [(my & Hmy & Hy) Hymax].
  pose proof (Hxmax _ _ Hmy Hy). pose proof (Hymax _ _ Hmx Hx). lia.
Qed.

(** What a returned record says about the run that produced it. *)
Lemma annotate_ok_inv self board board' info :
  undo_exact board →
  _annotate_board self board = (board', Ok info) →
  board' = board
  ∧ ∃ children best,
      children_on board (legal_moves board) [] = Ok children
      ∧ best_child board best
      ∧ 0 < probe_dtm board ≤ 1 - best
      ∧ int_truediv2 (probe_dtm board + 1) = Ok (epd_dm info)
      ∧ epd_bm info = (filter (λ p, p.2 = Some best) children).*1
      ∧ epd_R50 info = (probe_dtm board <? 1 - best).
Proof.
  intros Hundo. rewrite annotate_run by exact Hundo.
  destruct (children_on board (legal_moves board) []) as [children |] eqn:Hc;
    [| intros [= _ ?]; discriminate].
  destruct (py_max (omap snd children)) as [best |] eqn:Hmax;
    [| intros [= _ ?]; discriminate].
  destruct ((0 <? probe_dtm board) && (probe_dtm board <=? 1 - best))
    eqn:Hassert; [| intros [= _ ?]; discriminate].
  destruct (int_truediv2 (probe_dtm board + 1)) as [dm |] eqn:Hdm;
    [| intros [= _ ?]; discriminate].
  intros [= <- <-]. split; [done |]. exists children, best.
  apply andb_true_iff in Hassert as [?%Z.ltb_lt ?%Z.leb_le].
  split_and!; try done. by eapply children_best.
Qed.

End annotation_properties.

(** ** The scripted engine *)

(** The scripted engine undoes every move exactly. *)
Lemma stub_undo (board : Board Stub.Pos) : undo_exact board.
Proof.
  intros move _. destruct board as [[n st] clock].
  unfold pop, push; simpl. unfold Stub.stub_push, Stub.stub_pop; simpl.
  destruct (Stub.target n move). reflexivity.
Qed.

(** ** Classification of a reply (C1, C3, C9) *)

Section reply_theorems.
Context {Pos Move : Type} `{!RulesEngine Pos Move} `{!Tablebases Pos}.
Implicit Types (board after : Board Pos) (move : Move) (self : Generator).

(** C1 (amended): for every board and every reply, the reply is
    classified winning with distance [d] if and only if either applying
    it ends the game with checkmate and [d = 0], or the game is not
    over, the win-distance [v] of the resulting position satisfies
    [clock − 100 ≤ v < 0] for the half-move clock of the resulting
    position (the clock after the move, not before it), and the mate
    distance [d] of the resulting position is strictly negative.  It is
    classified losing if and only if it ends the game without checkmate
    or the game goes on and the bounded test fails.  In the remaining
    case, the bounded test passing with a non-negative mate distance,
    the reply is not classified: the assertion fails. *)
Theorem reply_classification board move :
  (∀ d, classify board move = Ok (Some d)
        ↔ (mates board move ∧ d = 0)
          ∨ (is_game_over (push board move) = false
             ∧ within_budget (push board move)
             ∧ probe_dtm (push board move) < 0
             ∧ d = probe_dtm (push board move)))
  ∧ (classify board move = Ok None
     ↔ (is_game_over (push board move) = true
        ∧ is_checkmate (push board move) = false)
       ∨ (is_game_over (push board move) = false
          ∧ ¬ within_budget (push board move)))
  ∧ (∀ e, classify board move = Raise e
          ↔ e = AssertionError ∧ oracles_disagree board move).
Proof.
  split_and!.
  - intros d. apply classify_winning.
  - apply classify_losing.
  - intros e. apply classify_raises.
Qed.

(** C3 (amended): a reply that does not mate and advances the half-move
    clock by one (a move that is not zeroing) is classified losing when
    the win-distance of the resulting position equals the clock before
    the move minus 100.  Relative to the clock of the resulting
    position the lower bound is inclusive: at equality there, with the
    game going on and a negative mate distance, the reply is classified
    winning. *)
Theorem boundary_reply board move :
  (halfmove_clock (push board move) = halfmove_clock board + 1 →
   probe_dtz (push board move) = halfmove_clock board - 100 →
   ¬ mates board move →
   classify board move = Ok None)
  ∧ (is_game_over (push board move) = false →
     probe_dtz (push board move) = halfmove_clock (push board move) - 100 →
     probe_dtz (push board move) < 0 →
     probe_dtm (push board move) < 0 →
     classify board move = Ok (Some (probe_dtm (push board move)))).
Proof.
  split.
  - intros Hclock Hdtz Hmate. apply classify_losing.
    destruct (is_game_over (push board move)) eqn:Hover.
    + left. split; [done |].
      destruct (is_checkmate (push board move)) eqn:Hm; [| done].
      destruct Hmate. by split.
    + right. split; [done |]. unfold within_budget. lia.
  - intros Hover Hdtz Hneg Hdtm. apply classify_winning. right.
    unfold within_budget. split_and!; try done; lia.
Qed.

(** C9: classifying one reply leaves the board as it was.  Every exit
    of [_child_dtm_if_lost], be it a winning classification, a losing
    one or the failed assertion, goes through the [finally] clause, so
    the board it leaves is the board after undoing the move; with an
    engine that undoes the legal moves exactly this is the board before
    the call.  Hence every sibling is classified on that same board,
    and the board of the record is the board that was given. *)
Theorem classification_restores_board self board :
  (∀ move, (_child_dtm_if_lost move board).1 = pop (push board move))
  ∧ (undo_exact board →
     (∀ move board' r,
        move ∈ legal_moves board →
        _child_dtm_if_lost move board = (board', r) →
        board' = board ∧ r = classify board move)
     ∧ children_of (legal_moves board) [] board
       = (board, children_on board (legal_moves board) [])
     ∧ (_annotate_board self board).1 = board).
Proof.
  split; [intros move; apply child_board |].
  intros Hundo. split_and!.
  - intros move board' r Hmove Hrun.
    rewrite child_restores in Hrun by (by apply Hundo).
    by injection Hrun as <- <-.
  - by apply children_of_on.
  - by rewrite annotate_run.
Qed.

End reply_theorems.

(** C1 as stated fails: with the clock read before the move, a quiet
    reply from a won position at clock 0 into a position 100 plies from
    zeroing passes the stated test (0 − 100 ≤ −100 < 0, mate distance
    −102); the program reads the clock after the move (1), finds
    −99 ≤ −100 false, and classifies the reply losing. *)
Lemma reply_clock_before_refuted :
  ¬ (∀ (board : Board Stub.Pos) (move : Z),
       confirmed_won board →
       move ∈ legal_moves board →
       ((∃ d, classify board move = Ok (Some d))
        ↔ mates board move
          ∨ (is_game_over (push board move) = false
             ∧ halfmove_clock board - 100 ≤ probe_dtz (push board move) < 0
             ∧ probe_dtm (push board move) < 0))).
Proof.
  intros H. specialize (H (Stub.at_node 10 0) 0).
  destruct H as [_ H].
  - unfold confirmed_won. simpl. lia.
  - change (0 ∈ [0; 1]). by left.
  - destruct H as [d Hd].
    + right. simpl. split_and!; [reflexivity | lia | lia | lia].
    + vm_compute in Hd. discriminate.
Qed.

Lemma reply_classification_witness :
  classify (Stub.at_node 40 90) 1 = Ok (Some (-20))
  ∧ (is_game_over (push (Stub.at_node 40 90) 0) = false
     ∧ ¬ within_budget (push (Stub.at_node 40 90) 0))
  ∧ oracles_disagree (Stub.at_node 60 0) 0.
Proof.
  split; [| split].
  - apply (proj1 (reply_classification (Stub.at_node 40 90) 1)). right.
    unfold within_budget. simpl. split_and!; reflexivity || lia.
  - assert (classify (Stub.at_node 40 90) 0 = Ok None) as Hlost
      by reflexivity.
    apply (proj1 (proj2 (reply_classification (Stub.at_node 40 90) 0)))
      in Hlost as [[Hover _] | Hout].
    + discriminate Hover.
    + exact Hout.
  - assert (classify (Stub.at_node 60 0) 0 = Raise AssertionError) as Hraise
      by reflexivity.
    apply (proj2 (proj2 (reply_classification (Stub.at_node 60 0) 0)))
      in Hraise as [_ Hdis].
    exact Hdis.
Defined.

(** C3 as stated fails: a capture from a won position at clock 0 into a
    position exactly 100 plies from zeroing has win-distance
    0 − 100, whichever clock is meant (it is 0 before and after the
    capture), and is classified winning. *)
Lemma boundary_reply_refuted :
  ¬ (∀ (board : Board Stub.Pos) (move : Z),
       confirmed_won board →
       move ∈ legal_moves board →
       probe_dtz (push board move) = halfmove_clock board - 100 →
       classify board move = Ok None).
Proof.
  intros H. specialize (H (Stub.at_node 20 0) 0).
  assert (classify (Stub.at_node 20 0) 0 = Ok None) as Hc.
  - apply H.
    + unfold confirmed_won. simpl. lia.
    + change (0 ∈ [0]). by left.
    + reflexivity.
  - vm_compute in Hc. discriminate.
Qed.

Lemma boundary_reply_witness :
  classify (Stub.at_node 10 0) 0 = Ok None
  ∧ classify (Stub.at_node 20 0) 0
    = Ok (Some (probe_dtm (push (Stub.at_node 20 0) 0))).
Proof.
  split.
  - apply (proj1 (boundary_reply (Stub.at_node 10 0) 0)).
    + reflexivity.
    + reflexivity.
    + intros [Hover _]. discriminate Hover.
  - apply (proj2 (boundary_reply (Stub.at_node 20 0) 0)).
    + reflexivity.
    + reflexivity.
    + simpl. lia.
    + simpl. lia.
Defined.

Lemma classification_restores_board_witness :
  (_child_dtm_if_lost 0 (Stub.at_node 60 0)).1 = Stub.at_node 60 0
  ∧ (_annotate_board Stub.kqk (Stub.at_node 60 0)).1 = Stub.at_node 60 0.
Proof.
  destruct (classification_restores_board Stub.kqk (Stub.at_node 60 0))
    as [_ Hundo].
  destruct (Hundo (stub_undo _)) as (Hchild & _ & Hrecord).
  split; [| exact Hrecord].
  eapply proj1, (Hchild 0).
  - change (0 ∈ [0; 1]). by left.
  - apply surjective_pairing.
Defined.

(** ** The annotation record (C4, C5, C6, C7) *)

Section record_theorems.
Context {Pos Move : Type} `{!RulesEngine Pos Move} `{!Tablebases Pos}.
Implicit Types (board after : Board Pos) (move : Move) (self : Generator).

(** C4 (amended): on a board whose legal moves the engine undoes
    exactly, the annotator aborts with an assertion failure exactly
    when a reply that passes the bounded win-distance test has a
    non-negative mate distance, or some reply is winning and the mate
    distance of the position fails [0 < parent ≤ 1 − best].  When no
    reply raises and no reply is classified winning it aborts with the
    [ValueError] of [max()] on an empty sequence, which is not an
    assertion.  A record is produced exactly when no reply raises, some
    reply is winning, the parent assertion holds and the conversion to
    full moves does not overflow. *)
Theorem annotation_outcome self board :
  undo_exact board →
  ((_annotate_board self board).2 = Raise AssertionError
   ↔ (∃ move, move ∈ legal_moves board ∧ oracles_disagree board move)
     ∨ (∃ best, best_child board best
                ∧ ¬ 0 < probe_dtm board ≤ 1 - best))
  ∧ ((_annotate_board self board).2 = Raise ValueError
     ↔ (∀ move, move ∈ legal_moves board → ¬ oracles_disagree board move)
       ∧ (∀ move d, move ∈ legal_moves board →
                    classify board move ≠ Ok (Some d)))
  ∧ (is_ok (_annotate_board self board).2 = true
     ↔ (∀ move, move ∈ legal_moves board → ¬ oracles_disagree board move)
       ∧ ∃ best, best_child board best
                 ∧ 0 < probe_dtm board ≤ 1 - best
                 ∧ is_ok (int_truediv2 (probe_dtm board + 1)) = true).
Proof.
  intros Hundo. rewrite annotate_run by exact Hundo. cbn [snd].
  destruct (children_on_cases board (legal_moves board) [])
    as [(children & Hc & Hagree) | (Hc & m & Hm & Hdis)]; rewrite Hc.
  - (* no reply raises *)
    destruct (py_max (omap snd children)) as [best | e] eqn:Hmax.
    + (* some reply wins *)
      pose proof (children_best _ _ _ Hc Hmax) as Hbest.
      destruct ((0 <? probe_dtm board) && (probe_dtm board <=? 1 - best))
        eqn:Hassert.
      * apply andb_true_iff in Hassert as [Hlo%Z.ltb_lt Hhi%Z.leb_le].
        destruct (int_truediv2 (probe_dtm board + 1)) as [dm | e] eqn:Hdm.
        -- split_and!; split; try done.
           ++ intros [(m & Hm & Hdis) | (best' & Hbest' & Hfail)].
              ** by destruct (Hagree m Hm).
              ** rewrite (best_child_unique _ _ _ Hbest' Hbest) in Hfail.
                 lia.
           ++ intros [_ Hnone]. destruct Hbest as [(m & Hm & Hw) _].
              by destruct (Hnone m best Hm).
           ++ intros _. split; [done |]. exists best.
              split_and!; done || lia.
        -- destruct (int_truediv2_raises _ _ Hdm) as [-> _].
           split_and!; split; try done.
           ++ intros [(m & Hm & Hdis) | (best' & Hbest' & Hfail)].
              ** by destruct (Hagree m Hm).
              ** rewrite (best_child_unique _ _ _ Hbest' Hbest) in Hfail.
                 lia.
           ++ intros [_ Hnone]. destruct Hbest as [(m & Hm & Hw) _].
              by destruct (Hnone m best Hm).
           ++ intros (_ & best' & _ & _ & Hok). discriminate.
      * split_and!; split; try done.
        -- intros _. right. exists best. split; [done |].
           intros [Hlo Hhi]. apply Z.ltb_lt in Hlo. apply Z.leb_le in Hhi.
           rewrite Hlo, Hhi in Hassert. discriminate.
        -- intros [_ Hnone]. destruct Hbest as [(m & Hm & Hw) _].
           by destruct (Hnone m best Hm).
        -- intros (_ & best' & Hbest' & Hrange & _).
           rewrite (best_child_unique _ _ _ Hbest' Hbest) in Hrange.
           assert ((0 <? probe_dtm board) && (probe_dtm board <=? 1 - best)
                   = true) as Hyes.
           { apply andb_true_iff. split; [apply Z.ltb_lt | apply Z.leb_le];
               lia. }
           congruence.
    + (* no reply wins *)
      apply py_max_raise in Hmax as [Hnil ->].
      assert (∀ move d, move ∈ legal_moves board →
                        classify board move ≠ Ok (Some d)) as Hnone.
      { intros m d Hm Hw.
        assert (d ∈ omap snd children) as Hin
          by (apply (winning_values _ _ _ Hc); eauto).
        rewrite Hnil in Hin. by apply elem_of_nil in Hin. }
      split_and!; split; try done.
      * intros [(m & Hm & Hdis) | (best & [(m & Hm & Hw) _] & _)].
        -- by destruct (Hagree m Hm).
        -- by destruct (Hnone m best Hm).
      * intros (_ & best & [(m & Hm & Hw) _] & _).
        by destruct (Hnone m best Hm).
  - (* a reply raises *)
    split_and!; split; try done.
    + intros _. left. eauto.
    + intros [Hagree _]. by destruct (Hagree m Hm).
    + intros [Hagree _]. by destruct (Hagree m Hm).
Qed.

(** C5: for every annotated position (on a board whose legal moves the
    engine undoes exactly), the optimal-move set is not empty, and a
    move is in it exactly when it is a legal reply classified winning
    whose mate distance is the greatest among the winning replies. *)
Theorem optimal_moves_fastest self board board' info :
  undo_exact board →
  _annotate_board self board = (board', Ok info) →
  epd_bm info ≠ []
  ∧ ∃ best, best_child board best
            ∧ ∀ move, move ∈ epd_bm info
                      ↔ move ∈ legal_moves board
                        ∧ classify board move = Ok (Some best).
Proof.
  intros Hundo Hrun.
  destruct (annotate_ok_inv _ _ _ _ Hundo Hrun)
    as (_ & children & best & Hc & Hbest & _ & _ & Hbm & _).
  assert (∀ move, move ∈ epd_bm info
                  ↔ move ∈ legal_moves board
                    ∧ classify board move = Ok (Some best)) as Hiff.
  { intros move. rewrite Hbm, list_elem_of_fmap. split.
    - intros ([m w] & -> & [Hw Hin]%list_elem_of_filter).
      simpl in Hw. subst w. by apply (children_entries _ _ _ _ Hc).
    - intros Hmove. exists (move, Some best). split; [done |].
      apply list_elem_of_filter. split; [done |].
      by apply (children_entries _ _ _ _ Hc). }
  split; [| by exists best].
  destruct Hbest as [(m & Hm & Hw) _].
  intros Hnil. assert (m ∈ epd_bm info) as Hin by (by apply Hiff).
  rewrite Hnil in Hin. by apply elem_of_nil in Hin.
Qed.


(** C7: for every annotated position (the parent assertion holds on
    it), the R50 flag is in the record if and only if the parent mate
    distance is strictly less than [1 − best], one ply more than the
    best child distance of the bounded analysis. *)
Theorem r50_flag self board board' info :
  undo_exact board →
  _annotate_board self board = (board', Ok info) →
  ∃ best, best_child board best
          ∧ 0 < probe_dtm board ≤ 1 - best
          ∧ (epd_R50 info = true ↔ probe_dtm board < 1 - best).
Proof.
  intros Hundo Hrun.
  destruct (annotate_ok_inv _ _ _ _ Hundo Hrun)
    as (_ & children & best & _ & Hbest & Hrange & _ & _ & Hflag).
  exists best. split; [done |]. split; [done |].
  rewrite Hflag. apply Z.ltb_lt.
Qed.

End record_theorems.

(** C4 as stated fails in its last part: at clock 97 with win-distance 3
    the position is accepted by the sampler, but the only progressing
    reply reaches clock 98 with win-distance −3 and misses the budget
    (98 − 100 ≤ −3 is false), the other reply draws.  No reply passes the
    bounded test, so neither assertion is violated, and still no record
    is produced: [max()] raises [ValueError]. *)
Lemma annotation_without_winner_refuted :
  ¬ (∀ (self : Generator) (board : Board Stub.Pos),
       confirmed_won board →
       (∀ move, move ∈ legal_moves board → ¬ oracles_disagree board move) →
       (∀ best, best_child board best → 0 < probe_dtm board ≤ 1 - best) →
       is_ok (_annotate_board self board).2 = true).
Proof.
  intros H. specialize (H Stub.kqk (Stub.at_node 30 97)).
  assert (∀ move, move ∈ legal_moves (Stub.at_node 30 97) →
                  move = 0 ∨ move = 1) as Hmoves.
  { intros move Hin. change (move ∈ [0; 1]) in Hin.
    apply elem_of_cons in Hin as [-> | Hin]; [by left |].
    apply list_elem_of_singleton in Hin as ->. by right. }
  assert (is_ok (_annotate_board Stub.kqk (Stub.at_node 30 97)).2 = true)
    as Hok.
  - apply H.
    + unfold confirmed_won. simpl. lia.
    + intros move [-> | ->]%Hmoves (_ & [Hlo Hhi] & _);
        simpl in Hlo, Hhi; lia.
    + intros best [(move & [-> | ->]%Hmoves & Hw) _];
        vm_compute in Hw; discriminate.
  - vm_compute in Hok. discriminate.
Qed.

Lemma annotation_outcome_witness :
  (∀ move, move ∈ legal_moves (Stub.at_node 30 97) →
           ¬ oracles_disagree (Stub.at_node 30 97) move)
  ∧ ∃ best, best_child (Stub.at_node 40 90) best
            ∧ 0 < probe_dtm (Stub.at_node 40 90) ≤ 1 - best.
Proof.
  split.
  - destruct (annotation_outcome Stub.kqk (Stub.at_node 30 97) (stub_undo _))
      as (_ & Hvalue & _).
    apply Hvalue. reflexivity.
  - destruct (annotation_outcome Stub.kqk (Stub.at_node 40 90) (stub_undo _))
      as (_ & _ & Hrecord).
    destruct (proj1 Hrecord eq_refl) as (_ & best & Hbest & Hrange & _).
    by exists best.
Defined.

Lemma annotate_node_40 :
  _annotate_board Stub.kqk (Stub.at_node 40 90)
  = (Stub.at_node 40 90, Ok Stub.record_40).
Proof. vm_compute. reflexivity. Qed.


Lemma optimal_moves_fastest_witness :
  epd_bm Stub.record_40 = [1; 4]
  ∧ ∃ best, best_child (Stub.at_node 40 90) best
            ∧ ∀ move, move ∈ epd_bm Stub.record_40
                      ↔ move ∈ legal_moves (Stub.at_node 40 90)
                        ∧ classify (Stub.at_node 40 90) move
                          = Ok (Some best).
Proof.
  split; [reflexivity |].
  apply (optimal_moves_fastest Stub.kqk (Stub.at_node 40 90) _ _
           (stub_undo _) annotate_node_40).
Defined.


(** The bound on the parent distance in C6 cannot be raised: at the
    parent distance 2^53 + 2 the field is 2^52 + 2, one more than the
    ceiling of half the distance. *)
Example dm_bound_tight :
  _annotate_board Stub.kqk (Stub.at_node 90 0)
  = (Stub.at_node 90 0, Ok Stub.record_90)
  ∧ probe_dtm (Stub.at_node 90 0) = 2 ^ 53 + 2
  ∧ epd_dm Stub.record_90 = 2 ^ 52 + 2
  ∧ ceil_div (probe_dtm (Stub.at_node 90 0)) 2 = 2 ^ 52 + 1.
Proof. vm_compute. done. Qed.


Lemma r50_flag_witness :
  epd_R50 Stub.record_40 = true
  ∧ ∃ best, best_child (Stub.at_node 40 90) best
            ∧ 0 < probe_dtm (Stub.at_node 40 90) ≤ 1 - best
            ∧ (epd_R50 Stub.record_40 = true
               ↔ probe_dtm (Stub.at_node 40 90) < 1 - best).
Proof.
  split; [reflexivity |].
  apply (r50_flag Stub.kqk (Stub.at_node 40 90) _ _
           (stub_undo _) annotate_node_40).
Defined.

(** ** The sampler and the key set (C2, C8) *)

Section sampler_properties.
Context {Pos Move : Type} `{!RulesEngine Pos Move} `{!Tablebases Pos}.
Implicit Types (board : Board Pos) (self : Generator) (rnd : Draw).

Lemma count_unique_boards key self :
  _unique_boards (count key self) = _unique_boards self.
Proof. reflexivity. Qed.

Lemma count_pieces key self : _pieces (count key self) = _pieces self.
Proof. reflexivity. Qed.

(** One pass of the loop, by cases: the four rejections, and the
    yield. *)
Lemma loop_body_cases self rnd :
  let board := placed_board self rnd in
  let dtz := probe_dtz board in
  let sampled := mkBoard (position board) (randint rnd 0 (100 - dtz)) in
  (is_valid board = false
   ∧ loop_body self rnd = (count "invalid" self, None))
  ∨ (is_valid board = true ∧ ¬ 0 < dtz ≤ 100
     ∧ ∃ key, loop_body self rnd = (count key self, None))
  ∨ (is_valid board = true ∧ 0 < dtz ≤ 100
     ∧ fen sampled ∈ _unique_boards self
     ∧ loop_body self rnd = (count "duplicate" self, None))
  ∨ (is_valid board = true ∧ 0 < dtz ≤ 100
     ∧ (fen sampled ∉ _unique_boards self)
     ∧ loop_body self rnd = (add_key (fen sampled) self, Some sampled)).
Proof.
  intros board dtz sampled. unfold loop_body.
  fold (placed_board self rnd). fold board. cbn zeta. fold dtz.
  destruct (is_valid board); cbn [negb]; [| by left].
  right.
  destruct ((0 <? dtz) && (dtz <=? 100)) eqn:Hrange; cbn [negb].
  - apply andb_true_iff in Hrange as [?%Z.ltb_lt ?%Z.leb_le].
    right. fold sampled. case_bool_decide as Hseen.
    + left. split_and!; done || lia.
    + right. split_and!; done || lia.
  - left. split; [done |]. split; [| eauto].
    intros [Hlo Hhi]. apply Z.ltb_lt in Hlo. apply Z.leb_le in Hhi.
    rewrite Hlo, Hhi in Hrange. discriminate.
Qed.

(** What a yield tells. *)
Lemma loop_body_yield self rnd self' sampled :
  loop_body self rnd = (self', Some sampled) →
  let board := placed_board self rnd in
  is_valid board = true
  ∧ 0 < probe_dtz board ≤ 100
  ∧ sampled = mkBoard (position board)
                      (randint rnd 0 (100 - probe_dtz board))
  ∧ (fen sampled ∉ _unique_boards self)
  ∧ self' = add_key (fen sampled) self.
Proof.
  intros Hrun board.
  destruct (loop_body_cases self rnd)
    as [[_ H] | [(_ & _ & key & H) | [(_ & _ & _ & H) | (Hv & Hr & Hn & H)]]];
    rewrite H in Hrun; try discriminate.
  injection Hrun as <- <-. done.
Qed.

(** A rejection only counts. *)
Lemma loop_body_reject self rnd self' :
  loop_body self rnd = (self', None) →
  ∃ key, self' = count key self.
Proof.
  intros Hrun.
  destruct (loop_body_cases self rnd)
    as [[_ H] | [(_ & _ & key & H) | [(_ & _ & _ & H) | (_ & _ & _ & H)]]];
    rewrite H in Hrun; try discriminate; injection Hrun as <-; eauto.
Qed.

Lemma loop_body_pieces self rnd :
  _pieces (loop_body self rnd).1 = _pieces self.
Proof.
  destruct (loop_body self rnd) as [self' [sampled |]] eqn:Hrun.
  - apply loop_body_yield in Hrun as (_ & _ & _ & _ & ->). reflexivity.
  - apply loop_body_reject in Hrun as [key ->]. reflexivity.
Qed.

Lemma placed_board_pieces self self' rnd :
  _pieces self' = _pieces self →
  placed_board self' rnd = placed_board self rnd.
Proof. intros H. unfold placed_board. by rewrite H. Qed.

(** Unfolding of the generator over one draw. *)
Lemma generate_boards_cons self rnd tape :
  _generate_boards self (rnd :: tape) =
  match (loop_body self rnd).2 with
  | None => _generate_boards (loop_body self rnd).1 tape
  | Some board =>
      (board :: (_generate_boards (loop_body self rnd).1 tape).1,
       (_generate_boards (loop_body self rnd).1 tape).2)
  end.
Proof.
  cbn [_generate_boards].
  destruct (loop_body self rnd) as [self' [board |]]; cbn [fst snd];
    [| reflexivity].
  by destruct (_generate_boards self' tape).
Qed.

(** Every yielded board comes from a draw of the tape: a valid
    placement with DTZ in 1..100, and the clock [randint] returned for
    the bounds 0 and 100 − DTZ. *)
Lemma generate_boards_origin tape :
  ∀ self sampled,
    sampled ∈ (_generate_boards self tape).1 →
    ∃ rnd, rnd ∈ tape
           ∧ let board := placed_board self rnd in
             is_valid board = true
             ∧ 0 < probe_dtz board ≤ 100
             ∧ sampled = mkBoard (position board)
                                 (randint rnd 0 (100 - probe_dtz board)).
Proof.
  induction tape as [| rnd tape IH]; intros self sampled Hin.
  - by apply elem_of_nil in Hin.
  - rewrite generate_boards_cons in Hin.
    assert (sampled ∈ (_generate_boards (loop_body self rnd).1 tape).1 →
            ∃ rnd0, rnd0 ∈ rnd :: tape
                    ∧ let board := placed_board self rnd0 in
                      is_valid board = true
                      ∧ 0 < probe_dtz board ≤ 100
                      ∧ sampled = mkBoard (position board)
                          (randint rnd0 0 (100 - probe_dtz board)))
      as Hlater.
    { intros Hin'. destruct (IH _ _ Hin') as (rnd0 & Hrnd0 & Hfacts).
      exists rnd0. split; [by right |].
      by rewrite (placed_board_pieces self _ rnd0 (loop_body_pieces self rnd))
        in Hfacts. }
    destruct (loop_body self rnd) as [self' [board |]] eqn:Hrun;
      cbn [fst snd] in *; [| by apply Hlater].
    apply elem_of_cons in Hin as [-> | Hin]; [| by apply Hlater].
    exists rnd. split; [by left |].
    apply loop_body_yield in Hrun as (Hv & Hr & Hs & _). done.
Qed.

(** The key set along a run: the keys of the yielded boards are
    pairwise distinct, none was in the set before, and the set at the
    end is the set at the start with exactly these keys added. *)
Lemma generate_boards_keys tape :
  ∀ self,
    NoDup (fen <$> (_generate_boards self tape).1)
    ∧ (∀ sampled, sampled ∈ (_generate_boards self tape).1 →
                  fen sampled ∉ _unique_boards self)
    ∧ _unique_boards (_generate_boards self tape).2
      = _unique_boards self
        ∪ list_to_set (fen <$> (_generate_boards self tape).1).
Proof.
  induction tape as [| rnd tape IH]; intros self.
  - cbn. split_and!; [constructor | | set_solver].
    intros sampled Hin. by apply elem_of_nil in Hin.
  - rewrite generate_boards_cons.
    destruct (loop_body self rnd) as [self' [board |]] eqn:Hrun;
      cbn [fst snd].
    + apply loop_body_yield in Hrun as (_ & _ & _ & Hfresh & ->).
      destruct (IH (add_key (fen board) self)) as (Hnd & Hnew & Hset).
      cbn [_unique_boards add_key] in Hnew, Hset.
      split_and!.
      * rewrite fmap_cons. apply NoDup_cons. split; [| done].
        intros (other & Heq & Hother)%list_elem_of_fmap.
        apply (Hnew other Hother). rewrite <- Heq. set_solver.
      * intros sampled [-> | Hin]%elem_of_cons; [done |].
        specialize (Hnew sampled Hin). set_solver.
      * rewrite Hset, fmap_cons. set_solver.
    + apply loop_body_reject in Hrun as [key ->].
      destruct (IH (count key self)) as (Hnd & Hnew & Hset).
      by rewrite count_unique_boards in Hnew, Hset.
Qed.

(** The boards of the records of a run are the first boards the
    sampler yields: annotation gives each board back as it was. *)
Lemma next_board_yields tape :
  ∀ self board self' tape',
    next_board self tape = Some (board, self', tape') →
    (_generate_boards self tape).1
    = board :: (_generate_boards self' tape').1.
Proof.
  induction tape as [| rnd tape IH]; intros self board self' tape' Hnext;
    [discriminate |].
  rewrite generate_boards_cons. cbn [next_board] in Hnext.
  destruct (loop_body self rnd) as [self1 [sampled |]]; cbn [fst snd].
  - by injection Hnext as -> -> ->.
  - by apply IH.
Qed.

Lemma generate_epd_boards n :
  (∀ board, undo_exact board) →
  ∀ self tape,
    ∃ rest, (_generate_boards self tape).1
            = (generate_epd n self tape).1.*1 ++ rest.
Proof.
  intros Hundo. induction n as [| n IH]; intros self tape;
    cbn [generate_epd]; [by eexists |].
  destruct (next_board self tape) as [[[board self'] tape'] |] eqn:Hnext;
    [| by eexists].
  rewrite (next_board_yields _ _ _ _ _ Hnext).
  destruct (IH self' tape') as [rest Hrest].
  destruct (_annotate_board self' board) as [board' [info | e]] eqn:Hrun;
    [| by eexists].
  apply annotate_ok_inv in Hrun as [-> _]; [| apply Hundo].
  destruct (generate_epd n self' tape') as [records r].
  exists rest. cbn [fst] in *. rewrite fmap_cons. cbn [fst app].
  by rewrite Hrest.
Qed.

End sampler_properties.

Section sampler_theorems.
Context {Pos Move : Type} `{!RulesEngine Pos Move} `{!Tablebases Pos}.
Implicit Types (board : Board Pos) (self : Generator) (rnd : Draw).

(** C2: every board the sampler yields has a win-distance [dtz] with
    [0 < dtz ≤ 100]; its half-move clock is the integer that
    [random.randint] returned for the bounds 0 and [100 − dtz] (the
    library's uniform draw from that range), so it lies in
    [0 .. 100 − dtz] and [clock + dtz ≤ 100]; with [dtz = 100] the
    clock is 0.  And a valid placement with [dtz = 100] whose key is
    new is yielded, with clock 0.  No clock of the range is excluded:
    for each [c] of [0 .. 100 − dtz] the draw that returns [c] yields
    the board at clock [c] (when its key is new).  The win-distance of
    the yielded board is the one probed before the clock was set, the
    DTZ tables not looking at the clock. *)
Theorem sampled_within_allowance self tape :
  (Forall randint_ok tape →
   dtz_ignores_clock →
   ∀ sampled,
     sampled ∈ (_generate_boards self tape).1 →
     0 < probe_dtz sampled ≤ 100
     ∧ (∃ rnd, rnd ∈ tape
               ∧ halfmove_clock sampled
                 = randint rnd 0 (100 - probe_dtz sampled))
     ∧ 0 ≤ halfmove_clock sampled ≤ 100 - probe_dtz sampled
     ∧ halfmove_clock sampled + probe_dtz sampled ≤ 100
     ∧ (probe_dtz sampled = 100 → halfmove_clock sampled = 0))
  ∧ (∀ rnd,
       randint_ok rnd →
       is_valid (placed_board self rnd) = true →
       probe_dtz (placed_board self rnd) = 100 →
       fen (placed_board self rnd) ∉ _unique_boards self →
       loop_body self rnd
       = (add_key (fen (placed_board self rnd)) self,
          Some (placed_board self rnd)))
  ∧ (∀ rnd clock,
       let board := placed_board self rnd in
       let sampled := mkBoard (position board) clock in
       is_valid board = true →
       0 < probe_dtz board ≤ 100 →
       0 ≤ clock ≤ 100 - probe_dtz board →
       fen sampled ∉ _unique_boards self →
       loop_body self (draw_clock rnd clock)
       = (add_key (fen sampled) self, Some sampled)).
Proof.
  split; [| split].
  - intros Hrandint Hdtz sampled Hin.
    destruct (generate_boards_origin _ _ _ Hin)
      as (rnd & Hrnd & _ & Hrange & ->).
    rewrite Forall_forall in Hrandint.
    pose proof (Hrandint rnd Hrnd 0 (100 - probe_dtz (placed_board self rnd)))
      as Hclock.
    assert (probe_dtz (mkBoard (position (placed_board self rnd))
              (randint rnd 0 (100 - probe_dtz (placed_board self rnd))))
            = probe_dtz (placed_board self rnd)) as Hsame
      by apply Hdtz.
    rewrite Hsame. cbn [halfmove_clock].
    split_and!; try lia. exists rnd. done.
  - intros rnd Hrandint Hvalid Hdtz Hfresh.
    assert (randint rnd 0 (100 - probe_dtz (placed_board self rnd)) = 0)
      as Hzero.
    { rewrite Hdtz. pose proof (Hrandint 0 (100 - 100)). lia. }
    destruct (loop_body_cases self rnd)
      as [[Hinv _] | [(_ & Hout & _) | [(_ & _ & Hseen & _)
                                        | (_ & _ & _ & Hrun)]]].
    + congruence.
    + lia.
    + rewrite Hzero in Hseen. done.
    + rewrite Hzero in Hrun. exact Hrun.
  - intros rnd clock. cbn zeta. intros Hvalid Hrange Hclock Hfresh.
    assert (randint (draw_clock rnd clock) 0
              (100 - probe_dtz (placed_board self rnd)) = clock) as Hdrawn.
    { cbn [randint draw_clock].
      destruct (Z.leb_spec 0 clock); [| lia].
      destruct (Z.leb_spec clock (100 - probe_dtz (placed_board self rnd)));
        [reflexivity | lia]. }
    destruct (loop_body_cases self (draw_clock rnd clock)) as [H | H];
      change (placed_board self (draw_clock rnd clock))
        with (placed_board self rnd) in H;
      rewrite ?Hdrawn in H.
    + destruct H as [Hinv _]. congruence.
    + destruct H as [(_ & Hout & _) | [(_ & _ & Hseen & _)
                                       | (_ & _ & _ & Hrun)]];
        [done | done | exact Hrun].
Qed.

Lemma draw_clock_randint_ok rnd clock : randint_ok (draw_clock rnd clock).
Proof.
  intros lo hi Hle. cbn [randint draw_clock].
  destruct (Z.leb_spec lo clock); cbn [andb]; [| lia].
  destruct (Z.leb_spec clock hi); lia.
Qed.

(** The boards the sampler yields are wins within the 50-move
    allowance, as the annotator expects. *)
Lemma sampled_confirmed_won self tape sampled :
  Forall randint_ok tape →
  dtz_ignores_clock →
  sampled ∈ (_generate_boards self tape).1 →
  confirmed_won sampled.
Proof.
  intros Hrandint Hdtz Hin.
  destruct (generate_boards_origin _ _ _ Hin)
    as (rnd & Hrnd & _ & Hrange & ->).
  rewrite Forall_forall in Hrandint.
  pose proof (Hrandint rnd Hrnd 0 (100 - probe_dtz (placed_board self rnd))).
  assert (probe_dtz (mkBoard (position (placed_board self rnd))
            (randint rnd 0 (100 - probe_dtz (placed_board self rnd))))
          = probe_dtz (placed_board self rnd)) as Hsame
    by apply Hdtz.
  unfold confirmed_won. rewrite Hsame. cbn [halfmove_clock]. lia.
Qed.

(** C8: within one run no two yielded boards have the same key, the
    key being the serialization [fen] of the board with its chosen
    clock; a sampled board whose key is already in the set is rejected
    and counted as duplicate, the set unchanged; a yielded board's key
    was not in the set and is added to it; and the set only grows: at
    the end of the run it is the set at the start together with the
    keys of the yielded boards.  The boards of the records a run emits
    are the first boards yielded, so their keys are pairwise distinct as
    well. *)
Theorem emitted_keys_distinct self tape :
  NoDup (fen <$> (_generate_boards self tape).1)
  ∧ (∀ sampled, sampled ∈ (_generate_boards self tape).1 →
                fen sampled ∉ _unique_boards self)
  ∧ _unique_boards (_generate_boards self tape).2
    = _unique_boards self
      ∪ list_to_set (fen <$> (_generate_boards self tape).1)
  ∧ _unique_boards self ⊆ _unique_boards (_generate_boards self tape).2
  ∧ (∀ rnd,
       let board := placed_board self rnd in
       let sampled :=
         mkBoard (position board) (randint rnd 0 (100 - probe_dtz board)) in
       is_valid board = true →
       0 < probe_dtz board ≤ 100 →
       fen sampled ∈ _unique_boards self →
       loop_body self rnd = (count "duplicate" self, None)
       ∧ _unique_boards (count "duplicate" self) = _unique_boards self
       ∧ stats (count "duplicate" self) !! "duplicate"
         = Some (S (default 0%nat (stats self !! "duplicate"))))
  ∧ (∀ rnd self' sampled,
       loop_body self rnd = (self', Some sampled) →
       halfmove_clock sampled
       = randint rnd 0 (100 - probe_dtz (placed_board self rnd))
       ∧ (fen sampled ∉ _unique_boards self)
       ∧ _unique_boards self' = {[fen sampled]} ∪ _unique_boards self)
  ∧ (∀ rnd self',
       loop_body self rnd = (self', None) →
       _unique_boards self' = _unique_boards self)
  ∧ ((∀ board, undo_exact board) →
     ∀ n, NoDup (fen <$> (generate_epd n self tape).1.*1)).
Proof.
  destruct (generate_boards_keys tape self) as (Hnd & Hnew & Hset).
  split_and!; try done.
  - rewrite Hset. set_solver.
  - intros rnd. cbn zeta. intros Hvalid Hrange Hseen. split_and!.
    + destruct (loop_body_cases self rnd)
        as [[Hinv _] | [(_ & Hout & _) | [(_ & _ & _ & Hrun)
                                          | (_ & _ & Hfresh & _)]]];
        [congruence | done | exact Hrun | done].
    + reflexivity.
    + cbn [stats count]. apply lookup_insert_eq.
  - intros rnd self' sampled Hrun.
    apply loop_body_yield in Hrun as (_ & _ & -> & Hfresh & ->).
    split_and!; [reflexivity | exact Hfresh | reflexivity].
  - intros rnd self' Hrun.
    apply loop_body_reject in Hrun as [key ->]. reflexivity.
  - intros Hundo n.
    destruct (generate_epd_boards n Hundo self tape) as [rest Hrest].
    rewrite Hrest, fmap_app in Hnd. by apply NoDup_app in Hnd as [? _].
Qed.

End sampler_theorems.

(** The scripted draws respect the range of [randint], and the scripted
    DTZ table does not look at the clock. *)
Lemma stub_tape_randint_ok : Forall randint_ok Stub.tape.
Proof.
  unfold Stub.tape.
  repeat (constructor; [intros lo hi Hle; cbn; lia |]). constructor.
Qed.

Lemma stub_dtz_ignores_clock : dtz_ignores_clock (Pos := Stub.Pos).
Proof. intros p c c'. reflexivity. Qed.

Lemma stub_run :
  (_generate_boards Stub.kqk Stub.tape).1
  = [Stub.at_node 176 0; Stub.at_node 160 90; Stub.at_node 160 43].
Proof. vm_compute. reflexivity. Qed.

Lemma sampled_within_allowance_witness :
  Stub.at_node 160 90 ∈ (_generate_boards Stub.kqk Stub.tape).1
  ∧ 0 < probe_dtz (Stub.at_node 160 90) ≤ 100
  ∧ halfmove_clock (Stub.at_node 160 90) + probe_dtz (Stub.at_node 160 90)
    ≤ 100.
Proof.
  assert (Stub.at_node 160 90 ∈ (_generate_boards Stub.kqk Stub.tape).1)
    as Hin by (rewrite stub_run; right; left).
  split; [exact Hin |].
  destruct (proj1 (sampled_within_allowance Stub.kqk Stub.tape)
              stub_tape_randint_ok stub_dtz_ignores_clock _ Hin)
    as (Hrange & _ & _ & Hsum & _).
  split; [exact Hrange | exact Hsum].
Defined.

Lemma emitted_keys_distinct_witness :
  NoDup (fen <$> (_generate_boards Stub.kqk Stub.tape).1)
  ∧ length (_generate_boards Stub.kqk Stub.tape).1 = 3%nat
  ∧ stats (_generate_boards Stub.kqk Stub.tape).2 !! "duplicate"
    = Some 1%nat.
Proof.
  split; [apply (emitted_keys_distinct Stub.kqk Stub.tape) |].
  split; [by rewrite stub_run | vm_compute; reflexivity].
Defined.

(** ** A run from sampling to records *)

(** Two records requested from the scripted run: the position with
    DTZ 100 gets clock 0 and mates in 51 moves, the next one is yielded
    at clock 90, with one move that forfeits the win. *)
Example stub_generate_epd :
  generate_epd 2 Stub.kqk Stub.tape
  = ([ (Stub.at_node 176 0, mkEpdInfo "KQk.1" None [0] None 51 false);
       (Stub.at_node 160 90,
        mkEpdInfo "KQk.2" (Some 90) [0] (Some [1]) 5 false) ],
     Ok true).
Proof. vm_compute. reflexivity. Qed.

(** The first failure of a run ends it: the position at node 60 cannot
    be annotated, and the assertion failure is what the caller sees. *)
Example stub_annotation_aborts :
  (_annotate_board Stub.kqk (Stub.at_node 60 0)).2 = Raise AssertionError
  ∧ (_annotate_board Stub.kqk (Stub.at_node 70 0)).2 = Raise AssertionError
  ∧ (_annotate_board Stub.kqk (Stub.at_node 30 97)).2 = Raise ValueError.
Proof. vm_compute. auto. Qed.

(* ===================================================================== *)
(** * Further properties of the constructor                               *)
(* ===================================================================== *)

Lemma from_symbol_known (c : N) :
  is_ok (from_symbol c) = in_class piece_symbols c.
Proof.
  destruct (in_class piece_symbols c) eqn:Hc.
  - unfold in_class, piece_symbols in Hc. simpl in Hc.
    rewrite !orb_true_iff, !N.eqb_eq in Hc.
    repeat (destruct Hc as [-> | Hc]; [reflexivity |]). discriminate.
  - change piece_symbols
      with (str "pnbrqk" ++ str "PNBRQK" ++ [KELVIN_SIGN]) in Hc.
    unfold in_class in Hc. rewrite !existsb_app, !orb_false_iff in Hc.
    destruct Hc as (Hlow & Hup & Hk). cbn [existsb] in Hk.
    rewrite orb_false_r in Hk.
    unfold from_symbol, lower_piece_letter, in_class.
    by rewrite Hlow, Hup, Hk.
Qed.

Lemma from_symbol_raises (c : N) (e : exn) :
  from_symbol c = Raise e → e = ValueError.
Proof.
  unfold from_symbol. destruct (lower_piece_letter c) as [letter |];
    [destruct (piece_type_of letter) |]; congruence.
Qed.

Lemma pieces_of_raises (s : list N) (e : exn) :
  pieces_of s = Raise e →
  e = ValueError ∧ ∃ c, c ∈ s ∧ in_class piece_symbols c = false.
Proof.
  induction s as [| c s IH]; cbn [pieces_of]; [discriminate |].
  destruct (from_symbol c) as [p |] eqn:Hc.
  - destruct (pieces_of s) as [ps |]; [discriminate |].
    intros [= <-]. destruct (IH eq_refl) as (-> & c' & Hin & Hc').
    split; [done |]. exists c'. split; [by right | done].
  - intros [= <-]. split; [by eapply from_symbol_raises |].
    exists c. split; [by left |].
    rewrite <- from_symbol_known, Hc. reflexivity.
Qed.

Lemma pieces_of_entries (s : list N) (ps : list Piece) :
  pieces_of s = Ok ps →
  length ps = length s
  ∧ ∀ i c, s !! i = Some c → ∃ p, ps !! i = Some p ∧ from_symbol c = Ok p.
Proof.
  revert ps. induction s as [| c s IH]; simpl; intros ps.
  - intros [= <-]. split; [done |]. intros i c' Hi. done.
  - destruct (from_symbol c) as [p |] eqn:Hc; [| discriminate].
    destruct (pieces_of s) as [ps' |]; [| discriminate].
    intros [= <-]. destruct (IH _ eq_refl) as [Hlen Hall]. split.
    + simpl. by rewrite Hlen.
    + intros [| i] c' Hi; simpl in *.
      * injection Hi as <-. eauto.
      * by apply Hall.
Qed.

Lemma shaped_prefix_match (s : list N) :
  re_match code_pattern s = true ↔ shaped_prefix s.
Proof.
  rewrite re_match_spec. unfold shaped_prefix.
  split; intros (p & rest & -> & Hp); exists p, rest;
    (split; [done |]); by apply signature_shape_lang.
Qed.

(** The constructor succeeds exactly on the signatures that start with a
    well-formed one and consist of piece symbols throughout: after the
    well-formed prefix, any of the six letters, of their capitals, and
    the Kelvin sign, which lower-cases to k. *)
Theorem init_succeeds_iff (code : list N) (id_format : list N → nat → string) :
  is_ok (__init__ code id_format) = true
  ↔ ∃ p rest : list N,
      code = p ++ rest
      ∧ signature_shape p
      ∧ Forall (λ c, in_class piece_symbols c = true) rest.
Proof.
  rewrite init_ok_iff, shaped_prefix_match, pieces_of_ok. split.
  - intros [(p & rest & Hcode & Hp) Hall]. exists p, rest.
    split_and!; [done | done |].
    rewrite Hcode in Hall. apply Forall_app in Hall as [_ Hrest].
    eapply Forall_impl; [exact Hrest |].
    intros c Hc. by rewrite <- from_symbol_known.
  - intros (p & rest & Hcode & Hp & Hrest). split; [by exists p, rest |].
    rewrite Hcode. apply Forall_app. split.
    + apply signature_shape_cons in Hp as (ws & bs & -> & _ & Hws & Hbs).
      constructor; [reflexivity |]. apply Forall_app. split.
      * eapply Forall_impl; [exact Hws |]. apply white_piece_symbol.
      * constructor; [reflexivity |].
        eapply Forall_impl; [exact Hbs |]. apply black_piece_symbol.
    + eapply Forall_impl; [exact Hrest |].
      intros c Hc. by rewrite from_symbol_known.
Qed.

(** How the constructor fails: with the assertion when no prefix of the
    signature is well formed, with the [ValueError] of [from_symbol]
    when a prefix is but some character is not a piece symbol (neither
    one of the twelve letters nor the Kelvin sign), and in no other
    way. *)
Theorem init_failures (code : list N) (id_format : list N → nat → string) :
  (__init__ code id_format = Raise AssertionError
   ↔ ¬ shaped_prefix code)
  ∧ (__init__ code id_format = Raise ValueError
     ↔ shaped_prefix code
       ∧ ∃ c, c ∈ code ∧ in_class piece_symbols c = false)
  ∧ __init__ code id_format ≠ Raise OverflowError.
Proof.
  rewrite <- shaped_prefix_match. unfold __init__.
  destruct (re_match code_pattern code); cbn [negb].
  - destruct (pieces_of code) as [ps | e] eqn:Hps.
    + split_and!; [| | done].
      * split; [discriminate | done].
      * split; [discriminate |]. intros (_ & c & Hin & Hc).
        assert (is_ok (pieces_of code) = true) as Hok
          by (by rewrite Hps).
        rewrite pieces_of_ok, Forall_forall in Hok.
        specialize (Hok c Hin). rewrite from_symbol_known in Hok. congruence.
    + destruct (pieces_of_raises _ _ Hps) as [-> Hbad].
      split_and!; [| | done].
      * split; [discriminate | done].
      * split; [done | done].
  - split_and!; [| | done].
    + split; [intros _; discriminate | done].
    + split; [discriminate |]. intros [? _]. discriminate.
Qed.

(** What a successful construction leaves: the signature as given, one
    piece per character in the order of the signature, the white king
    first, no key seen and nothing counted. *)
Theorem init_state (code : list N) (id_format : list N → nat → string)
    (g : Generator) :
  __init__ code id_format = Ok g →
  _code g = code
  ∧ length (_pieces g) = length code
  ∧ (∀ i c, code !! i = Some c →
            ∃ p, _pieces g !! i = Some p ∧ from_symbol c = Ok p)
  ∧ _pieces g !! 0%nat = Some (mkPiece KING true)
  ∧ mkPiece KING false ∈ _pieces g
  ∧ _unique_boards g = ∅
  ∧ stats g = ∅.
Proof.
  intros Hinit.
  assert (shaped_prefix code) as (p & rest & Hcode & Hp).
  { apply shaped_prefix_match.
    assert (is_ok (__init__ code id_format) = true) as Hok by (by rewrite Hinit).
    by apply init_ok_iff in Hok as [? _]. }
  unfold __init__ in Hinit.
  destruct (re_match code_pattern code); [| discriminate].
  destruct (pieces_of code) as [ps |] eqn:Hps; [| discriminate].
  cbn [negb] in Hinit. injection Hinit as <-. cbn.
  destruct (pieces_of_entries _ _ Hps) as [Hlen Hall].
  apply signature_shape_cons in Hp as (ws & bs & -> & _ & _ & _).
  split_and!; try done.
  - destruct (Hall 0%nat (N_of_ascii "K")) as (pc & Hpc & Hsym);
      [by rewrite Hcode |].
    vm_compute in Hsym. by injection Hsym as <-.
  - destruct (Hall (S (length ws)) (N_of_ascii "k")) as (pc & Hpc & Hsym).
    { rewrite Hcode.
      change ((str "K" ++ ws ++ str "k" ++ bs) ++ rest)
        with (N_of_ascii "K" :: (ws ++ N_of_ascii "k" :: bs) ++ rest).
      rewrite lookup_cons, <- app_assoc.
      rewrite lookup_app_r by lia. by rewrite Nat.sub_diag. }
    vm_compute in Hsym. injection Hsym as <-.
    by eapply list_elem_of_lookup_2.
Qed.

Lemma init_state_witness :
  __init__ (str "KQk") Stub.id_format = Ok Stub.kqk
  ∧ _pieces Stub.kqk !! 0%nat = Some (mkPiece KING true)
  ∧ _unique_boards Stub.kqk = ∅.
Proof.
  assert (__init__ (str "KQk") Stub.id_format = Ok Stub.kqk) as Hinit
    by reflexivity.
  split; [exact Hinit |].
  destruct (init_state (str "KQk") Stub.id_format Stub.kqk Hinit)
    as (_ & _ & _ & Hking & _ & Hkeys & _).
  split; [exact Hking | exact Hkeys].
Defined.

(** The signature of four code points K, Q, k, U+212A is accepted, and
    its fourth piece is a second white king: [str.lower] maps the Kelvin
    sign to k, and the sign is upper case. *)
Example init_kelvin_sign (id_format : list N → nat → string) :
  _pieces <$> (match __init__ (str "KQk" ++ [KELVIN_SIGN]) id_format with
               | Ok g => Some g
               | Raise _ => None
               end)
  = Some [mkPiece KING true; mkPiece QUEEN true; mkPiece KING false;
          mkPiece KING true].
Proof. reflexivity. Qed.

(* ===================================================================== *)
(** * Further properties of the annotator                                 *)
(* ===================================================================== *)

Section annotator_extras.
Context {Pos Move : Type} `{!RulesEngine Pos Move} `{!Tablebases Pos}.
Implicit Types (board after : Board Pos) (move : Move) (self : Generator).

(** A winning reply never has a positive distance, and distance 0 is
    kept for the replies that checkmate. *)
Theorem winning_distance board move d :
  classify board move = Ok (Some d) →
  d ≤ 0 ∧ (d = 0 ↔ mates board move).
Proof.
  intros Hd. pose proof Hd as Hcases.
  apply classify_winning in Hcases
    as [[Hmate ->] | (Hover & _ & Hneg & ->)].
  - split; [lia | done].
  - split; [lia |]. split; [lia |]. intros [Hover' _]. congruence.
Qed.

Lemma winning_is_nonpositive board move d :
  classify board move = Ok (Some d) → d ≤ 0.
Proof.
  intros [[_ ->] | (_ & _ & Hneg & ->)]%classify_winning; lia.
Qed.

(** Every field of a returned record, in terms of the finished dict. *)
Lemma annotate_ok_fields self board board' info :
  undo_exact board →
  _annotate_board self board = (board', Ok info) →
  ∃ children best,
    children_on board (legal_moves board) [] = Ok children
    ∧ NoDup children.*1
    ∧ best_child board best
    ∧ 0 < probe_dtm board ≤ 1 - best
    ∧ epd_id info
      = _id_format self (_code self) (size (_unique_boards self))
    ∧ epd_hmvc info
      = (if halfmove_clock board =? 0 then None
         else Some (halfmove_clock board))
    ∧ epd_bm info = (filter (λ p, p.2 = Some best) children).*1
    ∧ epd_am info
      = (let bad := (filter (λ p, p.2 = None) children).*1 in
         match bad with [] => None | _ => Some bad end)
    ∧ int_truediv2 (probe_dtm board + 1) = Ok (epd_dm info)
    ∧ epd_R50 info = (probe_dtm board <? 1 - best).
Proof.
  intros Hundo. rewrite annotate_run by exact Hundo.
  destruct (children_on board (legal_moves board) []) as [children |] eqn:Hc;
    [| intros [= _ ?]; discriminate].
  destruct (py_max (omap snd children)) as [best |] eqn:Hmax;
    [| intros [= _ ?]; discriminate].
  destruct ((0 <? probe_dtm board) && (probe_dtm board <=? 1 - best))
    eqn:Hassert; [| intros [= _ ?]; discriminate].
  destruct (int_truediv2 (probe_dtm board + 1)) as [dm |] eqn:Hdm;
    [| intros [= _ ?]; discriminate].
  intros [= <- <-]. exists children, best.
  apply andb_true_iff in Hassert as [?%Z.ltb_lt ?%Z.leb_le].
  destruct (children_on_ok board (legal_moves board) [] children)
    as [Hnd _]; [apply NoDup_nil_2 | done |].
  split; [done |]. split; [done |]. split; [by eapply children_best |].
  split; [lia |]. cbn. split_and!; reflexivity.
Qed.

Lemma filtered_keys_NoDup (P : Move * option Z → Prop)
    `{!∀ p, Decision (P p)} (children : list (Move * option Z)) :
  NoDup children.*1 → NoDup (filter P children).*1.
Proof.
  intros Hnd. eapply sublist_NoDup; [exact Hnd |].
  apply fmap_sublist, sublist_filter.
Qed.

(** The moves of [am] are exactly the legal replies classified losing;
    the key is left out exactly when there is none, and is never an
    empty list.  No move is listed twice, none is in both [bm] and [am],
    and a legal reply in neither is a winning reply slower than the
    best. *)
Theorem forfeiting_moves self board board' info :
  undo_exact board →
  _annotate_board self board = (board', Ok info) →
  (∀ move, move ∈ default [] (epd_am info)
           ↔ move ∈ legal_moves board ∧ classify board move = Ok None)
  ∧ (epd_am info = None
     ↔ ∀ move, move ∈ legal_moves board → classify board move ≠ Ok None)
  ∧ epd_am info ≠ Some []
  ∧ NoDup (epd_bm info)
  ∧ NoDup (default [] (epd_am info))
  ∧ (∀ move, move ∈ epd_bm info → move ∉ default [] (epd_am info))
  ∧ ∃ best, best_child board best
            ∧ ∀ move, move ∈ legal_moves board →
                      move ∈ epd_bm info
                      ∨ move ∈ default [] (epd_am info)
                      ∨ ∃ d, classify board move = Ok (Some d) ∧ d < best.
Proof.
  intros Hundo Hrun.
  destruct (annotate_ok_fields _ _ _ _ Hundo Hrun)
    as (children & best & Hc & Hnd & Hbest & _ & _ & _ & Hbm & Ham & _).
  set (bad := (filter (λ p : Move * option Z, p.2 = None) children).*1) in *.
  assert (∀ move, move ∈ bad
                  ↔ move ∈ legal_moves board ∧ classify board move = Ok None)
    as Hbad.
  { intros move. unfold bad. rewrite list_elem_of_fmap. split.
    - intros ([m w] & -> & [Hw Hin]%list_elem_of_filter).
      simpl in Hw. subst w. by apply (children_entries _ _ _ _ Hc).
    - intros Hmove. exists (move, None). split; [done |].
      apply list_elem_of_filter. split; [done |].
      by apply (children_entries _ _ _ _ Hc). }
  assert (∀ move, move ∈ epd_bm info
                  ↔ move ∈ legal_moves board
                    ∧ classify board move = Ok (Some best)) as Hopt.
  { intros move. rewrite Hbm, list_elem_of_fmap. split.
    - intros ([m w] & -> & [Hw Hin]%list_elem_of_filter).
      simpl in Hw. subst w. by apply (children_entries _ _ _ _ Hc).
    - intros Hmove. exists (move, Some best). split; [done |].
      apply list_elem_of_filter. split; [done |].
      by apply (children_entries _ _ _ _ Hc). }
  assert (default [] (epd_am info) = bad) as Hdefault.
  { rewrite Ham. cbn zeta. by destruct bad. }
  assert (NoDup bad) as Hndbad by (by apply filtered_keys_NoDup).
  rewrite Hdefault. split_and!.
  - exact Hbad.
  - rewrite Ham. cbn zeta. destruct bad as [| m bad'] eqn:Hlist.
    + split; [| done]. intros _ move Hin Hlost.
      assert (move ∈ []) as Hnil by (by apply Hbad).
      by apply elem_of_nil in Hnil.
    + split; [discriminate |]. intros Hnone.
      destruct (proj1 (Hbad m) ltac:(by left)) as [Hin Hlost].
      by destruct (Hnone m Hin).
  - rewrite Ham. cbn zeta. by destruct bad.
  - rewrite Hbm. by apply filtered_keys_NoDup.
  - exact Hndbad.
  - intros move [_ Hwin]%Hopt [_ Hlost]%Hbad. congruence.
  - exists best. split; [done |]. intros move Hin.
    destruct (children_on_cases board (legal_moves board) [])
      as [(d & Hd & Hagree) | (Hr & _)]; [| congruence].
    destruct (classify board move) as [[d' |] | e] eqn:Hcl.
    + destruct Hbest as [_ Hmax]. pose proof (Hmax move d' Hin Hcl).
      destruct (decide (d' = best)) as [-> | Hne].
      * left. by apply Hopt.
      * right. right. exists d'. split; [done | lia].
    + right. left. by apply Hbad.
    + apply classify_raises in Hcl as [_ Hdis]. by destruct (Hagree move Hin).
Qed.

(** When the engine lists each legal move once, the dict holds the legal
    moves in the engine's order. *)
Lemma children_on_keys board moves :
  ∀ acc d,
    NoDup (acc.*1 ++ moves) →
    children_on board moves acc = Ok d →
    d.*1 = acc.*1 ++ moves.
Proof.
  induction moves as [| move moves IH]; intros acc d Hnd; cbn [children_on].
  - intros [= <-]. by rewrite app_nil_r.
  - destruct (classify board move) as [v |]; [| discriminate]. intros Hd.
    assert (move ∉ acc.*1) as Hfresh.
    { apply NoDup_app in Hnd as (_ & Hdisj & _). intros Hin.
      apply (Hdisj move Hin). by left. }
    assert ((dict_set move v acc).*1 = acc.*1 ++ [move]) as Hkeys.
    { rewrite dict_set_keys. by rewrite decide_False. }
    rewrite (IH (dict_set move v acc) d); [| | done].
    + rewrite Hkeys. by rewrite <- app_assoc.
    + rewrite Hkeys. by rewrite <- app_assoc.
Qed.

Lemma filter_by_class board (w : option Z) (d : list (Move * option Z))
    (Hdec : ∀ p : Move * option Z, Decision (p.2 = w)) :
  (∀ m v, (m, v) ∈ d → classify board m = Ok v) →
  (@filter _ _ _ (λ p, p.2 = w) Hdec d).*1
  = filter (λ m, classify board m = Ok w) d.*1.
Proof.
  induction d as [| [m v] d IH]; intros Hd; [done |].
  rewrite fmap_cons. cbn [fst].
  assert (classify board m = Ok v) as Hm by (apply Hd; left).
  assert (∀ m' v', (m', v') ∈ d → classify board m' = Ok v') as Hd'
    by (intros m' v' Hin; apply Hd; by right).
  destruct (decide (v = w)) as [-> | Hne].
  - rewrite filter_cons_True by done.
    rewrite (filter_cons_True (λ m0, classify board m0 = Ok w)) by done.
    rewrite fmap_cons. cbn [fst]. by rewrite IH.
  - rewrite filter_cons_False by done.
    rewrite (filter_cons_False (λ m0, classify board m0 = Ok w))
      by congruence.
    by apply IH.
Qed.

(** With an engine that lists each legal move once, [bm] and [am] list
    their moves in the order the engine generates them: [bm] is the list
    of legal moves filtered by "winning with the best distance", [am]
    the list filtered by "losing". *)
Theorem annotation_order self board board' info :
  undo_exact board →
  NoDup (legal_moves board) →
  _annotate_board self board = (board', Ok info) →
  ∃ best, best_child board best
          ∧ epd_bm info
            = filter (λ move, classify board move = Ok (Some best))
                     (legal_moves board)
          ∧ default [] (epd_am info)
            = filter (λ move, classify board move = Ok None)
                     (legal_moves board).
Proof.
  intros Hundo Hnd Hrun.
  destruct (annotate_ok_fields _ _ _ _ Hundo Hrun)
    as (children & best & Hc & _ & Hbest & _ & _ & _ & Hbm & Ham & _).
  assert (children.*1 = legal_moves board) as Hkeys
    by (by apply (children_on_keys board (legal_moves board) [])).
  assert (∀ m v, (m, v) ∈ children → classify board m = Ok v) as Hentries.
  { intros m v Hin. by apply (children_entries _ _ _ _ Hc) in Hin as [_ ?]. }
  exists best. split; [done |]. split.
  - rewrite Hbm, (filter_by_class board) by done. by rewrite Hkeys.
  - rewrite <- Hkeys.
    rewrite <- (filter_by_class board None children _ Hentries).
    set (bad := (filter (λ p : Move * option Z, p.2 = None) children).*1)
      in *.
    rewrite Ham. cbn zeta. by destruct bad.
Qed.

(** When some legal reply checkmates, a record is returned only for
    parent distance 1; the full-move distance is then 1, the marker R50
    is absent, and [bm] holds exactly the mating replies. *)
Theorem mate_in_one self board board' info :
  undo_exact board →
  _annotate_board self board = (board', Ok info) →
  (∃ move, move ∈ legal_moves board ∧ mates board move) →
  probe_dtm board = 1
  ∧ epd_dm info = 1
  ∧ epd_R50 info = false
  ∧ ∀ move, move ∈ epd_bm info
            ↔ move ∈ legal_moves board ∧ mates board move.
Proof.
  intros Hundo Hrun (mating & Hin & Hmate).
  destruct (annotate_ok_fields _ _ _ _ Hundo Hrun)
    as (children & best & Hc & _ & Hbest & Hrange & _ & _ & Hbm & _
        & Hdm & Hflag).
  assert (classify board mating = Ok (Some 0)) as Hzero
    by (apply classify_winning; by left).
  assert (best = 0) as ->.
  { destruct Hbest as [(m & Hm & Hw) Hmax].
    pose proof (Hmax _ _ Hin Hzero).
    pose proof (winning_is_nonpositive board m best Hw). lia. }
  assert (probe_dtm board = 1) as Hone by lia.
  rewrite Hone in Hdm, Hflag. split_and!.
  - exact Hone.
  - assert (int_truediv2 (1 + 1) = Ok 1) as Htwo by (vm_compute; reflexivity).
    congruence.
  - exact Hflag.
  - intros move. rewrite Hbm, list_elem_of_fmap. split.
    + intros ([m w] & -> & [Hw Hmem]%list_elem_of_filter).
      simpl in Hw. subst w.
      apply (children_entries _ _ _ _ Hc) in Hmem as [Hlegal Hcl].
      split; [done |].
      apply classify_winning in Hcl as [[? _] | (_ & _ & ? & ?)]; [done | lia].
    + intros [Hlegal Hm]. exists (move, Some 0). split; [done |].
      apply list_elem_of_filter. split; [done |].
      apply (children_entries _ _ _ _ Hc). split; [done |].
      apply classify_winning. by left.
Qed.

End annotator_extras.

(* ===================================================================== *)
(** * Further properties of the sampler                                   *)
(* ===================================================================== *)

Lemma counter_count (key key' : string) (g : Generator) :
  counter key (count key' g)
  = if decide (key = key') then S (counter key g) else counter key g.
Proof.
  unfold counter. cbn [stats count].
  destruct (decide (key = key')) as [-> | Hne].
  - by rewrite lookup_insert_eq.
  - by rewrite lookup_insert_ne.
Qed.

Lemma stats_total_count (key : string) (g : Generator) :
  stats_total (count key g) = S (stats_total g).
Proof.
  unfold stats_total. cbn [stats count].
  assert (∀ (m : gmap string nat) (j1 j2 : string) (z1 z2 y : nat),
            j1 ≠ j2 → m !! j1 = Some z1 → m !! j2 = Some z2 →
            (z1 + (z2 + y) = z2 + (z1 + y))%nat) as Hcomm
    by (intros; lia).
  destruct (stats g !! key) as [n |] eqn:Hkey; cbn [default].
  - rewrite <- (insert_delete_eq (stats g)).
    rewrite map_fold_insert_L;
      [| apply Hcomm | apply lookup_delete_eq].
    rewrite (map_fold_delete_L _ _ key n (stats g));
      [unfold id; lia | apply Hcomm | done].
  - rewrite map_fold_insert_L; [unfold id; lia | apply Hcomm | done].
Qed.

Section sampler_extras.
Context {Pos Move : Type} `{!RulesEngine Pos Move} `{!Tablebases Pos}.
Implicit Types (board : Board Pos) (self : Generator) (rnd : Draw).

Lemma placement_reject_pieces self self' rnd :
  _pieces self' = _pieces self →
  placement_reject self' rnd = placement_reject self rnd.
Proof.
  intros H. unfold placement_reject.
  by rewrite (placed_board_pieces self self' rnd H).
Qed.

(** One pass, by the verdict on the placement: a rejected placement is
    counted under its reason and nothing else changes; an accepted one
    is either yielded, the counters untouched, or counted as
    duplicate. *)
Lemma loop_body_verdict self rnd :
  match placement_reject self rnd with
  | Some key => loop_body self rnd = (count key self, None)
  | None =>
      (∃ sampled, loop_body self rnd = (add_key (fen sampled) self, Some sampled))
      ∨ loop_body self rnd = (count "duplicate" self, None)
  end.
Proof.
  unfold placement_reject, loop_body. fold (placed_board self rnd).
  cbn zeta. set (board := placed_board self rnd).
  destruct (is_valid board); cbn [negb]; [| reflexivity].
  destruct (Z.ltb_spec (probe_dtz board) 0) as [Hneg | Hnonneg].
  { destruct (Z.ltb_spec 0 (probe_dtz board)); [lia | reflexivity]. }
  destruct (Z.eqb_spec (probe_dtz board) 0) as [Hzero | Hnz].
  { destruct (Z.ltb_spec 0 (probe_dtz board)); [lia | reflexivity]. }
  destruct (Z.ltb_spec 0 (probe_dtz board)); [| lia].
  destruct (Z.ltb_spec 100 (probe_dtz board)) as [Hbig | Hsmall].
  { destruct (Z.leb_spec (probe_dtz board) 100); [lia | reflexivity]. }
  destruct (Z.leb_spec (probe_dtz board) 100); [| lia]. cbn [andb negb].
  case_bool_decide; [by right | left; eauto].
Qed.

(** Every pass of the loop is accounted for: it yields a board or adds
    one to one counter, so along a run the counters grow by the number
    of passes that yielded nothing. *)
Theorem every_pass_accounted self tape :
  (stats_total (_generate_boards self tape).2
   + length (_generate_boards self tape).1
   = stats_total self + length tape)%nat.
Proof.
  revert self. induction tape as [| rnd tape IH]; intros self.
  - cbn. lia.
  - rewrite generate_boards_cons.
    destruct (loop_body self rnd) as [self' [board |]] eqn:Hrun;
      cbn [fst snd length].
    + apply loop_body_yield in Hrun as (_ & _ & _ & _ & ->).
      specialize (IH (add_key (fen board) self)).
      change (stats_total (add_key (fen board) self)) with (stats_total self)
        in IH. lia.
    + apply loop_body_reject in Hrun as [key ->].
      specialize (IH (count key self)).
      rewrite stats_total_count in IH. lia.
Qed.

(** What each counter counts.  "invalid", "loss", "draw" and
    "cursed_win" count the draws of the tape whose placement is rejected
    for that reason; "duplicate" counts the accepted placements that
    were not yielded; no other key is ever touched. *)
Theorem counters_exact self tape :
  (∀ key, key ∈ ["invalid"; "loss"; "draw"; "cursed_win"] →
          counter key (_generate_boards self tape).2
          = (counter key self
             + length (filter (λ rnd, placement_reject self rnd = Some key)
                              tape))%nat)
  ∧ (counter "duplicate" (_generate_boards self tape).2
     + length (_generate_boards self tape).1
     = counter "duplicate" self
       + length (filter (λ rnd, placement_reject self rnd = None) tape))%nat
  ∧ (∀ key, key ∉ rejection_keys →
            stats (_generate_boards self tape).2 !! key = stats self !! key).
Proof.
  assert (∀ self0,
            _pieces self0 = _pieces self →
            (∀ key, key ∈ ["invalid"; "loss"; "draw"; "cursed_win"] →
                    counter key (_generate_boards self0 tape).2
                    = (counter key self0
                       + length (filter
                           (λ rnd, placement_reject self rnd = Some key)
                           tape))%nat)
            ∧ (counter "duplicate" (_generate_boards self0 tape).2
               + length (_generate_boards self0 tape).1
               = counter "duplicate" self0
                 + length (filter (λ rnd, placement_reject self rnd = None)
                                  tape))%nat
            ∧ (∀ key, key ∉ rejection_keys →
                      stats (_generate_boards self0 tape).2 !! key
                      = stats self0 !! key)) as Hgen; [| by apply Hgen].
  induction tape as [| rnd tape IH]; intros self0 Hpieces.
  - cbn. split_and!; [intros; lia | lia | done].
  - rewrite generate_boards_cons.
    pose proof (loop_body_verdict self0 rnd) as Hverdict.
    rewrite (placement_reject_pieces self self0 rnd Hpieces) in Hverdict.
    pose proof (loop_body_pieces self0 rnd) as Hkeep.
    destruct (placement_reject self rnd) as [reason |] eqn:Hreason.
    + (* the placement is rejected *)
      rewrite Hverdict in *. cbn [fst snd] in *.
      destruct (IH (count reason self0)) as (Hfour & Hdup & Hother);
        [by rewrite count_pieces |].
      assert (reason ∈ ["invalid"; "loss"; "draw"; "cursed_win"]) as Hin.
      { unfold placement_reject in Hreason.
        repeat match type of Hreason with
               | (if ?b then _ else _) = _ => destruct b
               end; try discriminate; injection Hreason as <-; set_solver. }
      split_and!.
      * intros key Hkey. rewrite (Hfour key Hkey), counter_count.
        destruct (decide (key = reason)) as [-> | Hne].
        -- rewrite filter_cons_True by done. cbn [length]. lia.
        -- rewrite filter_cons_False by congruence. lia.
      * rewrite filter_cons_False by congruence.
        rewrite counter_count in Hdup.
        rewrite decide_False in Hdup; [exact Hdup |].
        intros <-. set_solver.
      * intros key Hkey. rewrite (Hother key Hkey). cbn [stats count].
        apply lookup_insert_ne. intros <-. apply Hkey.
        unfold rejection_keys. set_solver.
    + (* the placement is accepted *)
      destruct Hverdict as [[sampled Hrun] | Hrun]; rewrite Hrun in *;
        cbn [fst snd length] in *.
      * destruct (IH (add_key (fen sampled) self0)) as (Hfour & Hdup & Hother);
          [done |].
        split_and!.
        -- intros key Hkey. rewrite (Hfour key Hkey).
           rewrite filter_cons_False by congruence. reflexivity.
        -- rewrite filter_cons_True by done. cbn [length].
           change (counter "duplicate" (add_key (fen sampled) self0))
             with (counter "duplicate" self0) in Hdup. lia.
        -- exact Hother.
      * destruct (IH (count "duplicate" self0)) as (Hfour & Hdup & Hother);
          [by rewrite count_pieces |].
        split_and!.
        -- intros key Hkey. rewrite (Hfour key Hkey), counter_count.
           rewrite filter_cons_False by congruence.
           rewrite decide_False; [reflexivity |].
           intros ->. set_solver.
        -- rewrite filter_cons_True by done. cbn [length].
           rewrite counter_count, decide_True in Hdup by done. lia.
        -- intros key Hkey. rewrite (Hother key Hkey). cbn [stats count].
           apply lookup_insert_ne. intros <-. apply Hkey.
           unfold rejection_keys. set_solver.
Qed.

End sampler_extras.

Section run_extras.
Context {Pos Move : Type} `{!RulesEngine Pos Move} `{!Tablebases Pos}.
Implicit Types (board : Board Pos) (self : Generator) (rnd : Draw).

(** The key set grows by one key for each board yielded. *)
Theorem key_set_size self tape :
  size (_unique_boards (_generate_boards self tape).2)
  = (size (_unique_boards self) + length (_generate_boards self tape).1)%nat.
Proof.
  destruct (generate_boards_keys tape self) as (Hnd & Hnew & Hset).
  rewrite Hset, size_union.
  - rewrite size_list_to_set by done. by rewrite length_fmap.
  - intros key Hold [sampled [-> Hin]]%elem_of_list_to_set%list_elem_of_fmap.
    by apply (Hnew sampled Hin).
Qed.

(** A draw that was just yielded is rejected as a duplicate when it
    comes again: the same placement with the same clock is never
    yielded twice in a row. *)
Theorem repeated_draw_rejected self rnd self' sampled :
  loop_body self rnd = (self', Some sampled) →
  loop_body self' rnd = (count "duplicate" self', None).
Proof.
  intros Hrun.
  apply loop_body_yield in Hrun as (Hvalid & Hrange & Hs & _ & ->).
  assert (placed_board (add_key (fen sampled) self) rnd = placed_board self rnd)
    as Hsame by reflexivity.
  destruct (loop_body_cases (add_key (fen sampled) self) rnd)
    as [[Hinv _] | [(_ & Hout & _) | [(_ & _ & _ & Hdup)
                                      | (_ & _ & Hfresh & _)]]];
    rewrite ?Hsame in *.
  - congruence.
  - done.
  - exact Hdup.
  - exfalso. apply Hfresh. rewrite <- Hs. cbn [_unique_boards add_key].
    set_solver.
Qed.

Lemma next_board_state tape :
  ∀ self board self' tape',
    next_board self tape = Some (board, self', tape') →
    _code self' = _code self
    ∧ _id_format self' = _id_format self
    ∧ _pieces self' = _pieces self
    ∧ size (_unique_boards self') = S (size (_unique_boards self)).
Proof.
  induction tape as [| rnd tape IH]; intros self board self' tape' Hnext;
    [discriminate |].
  cbn [next_board] in Hnext.
  destruct (loop_body self rnd) as [self1 [sampled |]] eqn:Hrun.
  - injection Hnext as -> -> ->.
    apply loop_body_yield in Hrun as (_ & _ & _ & Hfresh & ->).
    split_and!; try reflexivity. cbn [_unique_boards add_key].
    rewrite size_union by set_solver. by rewrite size_singleton.
  - apply loop_body_reject in Hrun as [key ->].
    destruct (IH _ _ _ _ Hnext) as (? & ? & ? & ?). done.
Qed.

(** The identifier is formatted before anything is probed; no assumption
    on the engine is needed to read it off a returned record. *)
Lemma annotate_id self board board' info :
  _annotate_board self board = (board', Ok info) →
  epd_id info = _id_format self (_code self) (size (_unique_boards self)).
Proof.
  unfold _annotate_board, bind, gets, lift, assert, ret, raise.
  cbn beta iota zeta. intros Hrun.
  repeat match type of Hrun with
         | context [match ?x with _ => _ end] =>
             destruct x; try discriminate
         end;
    by injection Hrun as _ <-.
Qed.

(** Records are numbered consecutively: the record at position [i] of a
    run (counting from 0) has the identifier formatted from the
    signature and the size of the key set at the start plus [i + 1]. *)
Theorem record_ids_consecutive n :
  ∀ self tape i board info,
    (generate_epd n self tape).1 !! i = Some (board, info) →
    epd_id info
    = _id_format self (_code self) (size (_unique_boards self) + i + 1).
Proof.
  induction n as [| n IH]; intros self tape i board info; [done |].
  cbn [generate_epd].
  destruct (next_board self tape) as [[[sampled self'] tape'] |] eqn:Hnext;
    [| done].
  destruct (next_board_state _ _ _ _ _ Hnext) as (Hcode & Hfmt & _ & Hsize).
  destruct (_annotate_board self' sampled) as [board' [info' | e]] eqn:Hrun;
    [| done].
  specialize (IH self' tape').
  destruct (generate_epd n self' tape') as [records r]. cbn [fst] in *.
  destruct i as [| i]; cbn.
  - intros [= -> ->]. rewrite (annotate_id _ _ _ _ Hrun).
    rewrite Hcode, Hfmt, Hsize. f_equal. lia.
  - intros Hi. rewrite (IH i board info Hi), Hcode, Hfmt, Hsize.
    f_equal. lia.
Qed.

End run_extras.

(** ** The placement handed to the engine *)



(** ** The records of a run *)

Section record_extras.
Context {Pos Move : Type} `{!RulesEngine Pos Move} `{!Tablebases Pos}.
Implicit Types (board : Board Pos) (self : Generator) (rnd : Draw).

(** Each record of a run pairs a board the sampler yielded with what the
    annotator returned for it. *)
Lemma generate_epd_records n :
  (∀ board, undo_exact board) →
  ∀ self tape board info,
    (board, info) ∈ (generate_epd n self tape).1 →
    board ∈ (_generate_boards self tape).1
    ∧ ∃ self', _annotate_board self' board = (board, Ok info).
Proof.
  intros Hundo. induction n as [| n IH]; intros self tape board info;
    cbn [generate_epd]; [intros Hin; by apply elem_of_nil in Hin |].
  destruct (next_board self tape) as [[[sampled self'] tape'] |] eqn:Hnext;
    [| intros Hin; by apply elem_of_nil in Hin].
  rewrite (next_board_yields _ _ _ _ _ Hnext).
  destruct (_annotate_board self' sampled) as [board' [info' | e]] eqn:Hrun;
    [| intros Hin; by apply elem_of_nil in Hin].
  pose proof Hrun as Hsame.
  apply annotate_ok_inv in Hsame as [-> _]; [| apply Hundo].
  specialize (IH self' tape' board info).
  destruct (generate_epd n self' tape') as [records r]. cbn [fst] in *.
  intros [[= -> ->] | Hin]%elem_of_cons.
  - split; [by left | eauto].
  - destruct (IH Hin) as [Hyield Hann]. split; [by right | done].
Qed.

(** Every record of a run is about a position that is a win within the
    50-move allowance, names at least one best move, names only legal
    moves as best moves, and carries the clock exactly when it is not
    zero, a clock that is then between 1 and 99. *)
Theorem records_sound n self tape board info :
  (∀ board, undo_exact board) →
  Forall randint_ok tape →
  dtz_ignores_clock →
  (board, info) ∈ (generate_epd n self tape).1 →
  confirmed_won board
  ∧ 0 < probe_dtm board
  ∧ epd_bm info ≠ []
  ∧ (∀ move, move ∈ epd_bm info → move ∈ legal_moves board)
  ∧ (epd_hmvc info = None ↔ halfmove_clock board = 0)
  ∧ (∀ clock, epd_hmvc info = Some clock →
              clock = halfmove_clock board ∧ 1 ≤ clock ≤ 99).
Proof.
  intros Hundo Hrandint Hdtz Hin.
  destruct (generate_epd_records n Hundo _ _ _ _ Hin) as [Hyield [self' Hrun]].
  pose proof (sampled_confirmed_won _ _ _ Hrandint Hdtz Hyield) as Hwon.
  destruct (annotate_ok_fields _ _ _ _ (Hundo board) Hrun)
    as (children & best & Hc & _ & Hbest & Hrange & _ & Hclock & Hbm & _).
  assert (∀ move, move ∈ epd_bm info
                  ↔ move ∈ legal_moves board
                    ∧ classify board move = Ok (Some best)) as Hopt.
  { intros move. rewrite Hbm, list_elem_of_fmap. split.
    - intros ([m w] & -> & [Hw Hmem]%list_elem_of_filter).
      simpl in Hw. subst w. by apply (children_entries _ _ _ _ Hc).
    - intros Hmove. exists (move, Some best). split; [done |].
      apply list_elem_of_filter. split; [done |].
      by apply (children_entries _ _ _ _ Hc). }
  destruct Hwon as (Hdtzrange & Hnonneg & Hsum).
  split; [done |]. split; [lia |]. split_and!.
  - destruct Hbest as [(m & Hm & Hw) _]. intros Hnil.
    assert (m ∈ epd_bm info) as Hmem by (by apply Hopt).
    rewrite Hnil in Hmem. by apply elem_of_nil in Hmem.
  - intros move [? _]%Hopt. done.
  - rewrite Hclock. destruct (Z.eqb_spec (halfmove_clock board) 0);
      split; done.
  - intros clock. rewrite Hclock.
    destruct (Z.eqb_spec (halfmove_clock board) 0); [discriminate |].
    intros [= <-]. lia.
Qed.

End record_extras.

(** ** The further properties on the scripted engine *)

Lemma annotate_node_50 :
  _annotate_board Stub.kqk (Stub.at_node 50 0)
  = (Stub.at_node 50 0, Ok stub_record_50).
Proof. vm_compute. reflexivity. Qed.

Lemma stub_moves_40_NoDup : NoDup (legal_moves (Stub.at_node 40 90)).
Proof.
  change (NoDup [0; 1; 2; 3; 4]).
  repeat (apply NoDup_cons; split; [set_solver |]). apply NoDup_nil_2.
Qed.

Lemma winning_distance_witness :
  classify (Stub.at_node 50 0) 0 = Ok (Some 0)
  ∧ (0 = 0 ↔ mates (Stub.at_node 50 0) 0).
Proof.
  assert (classify (Stub.at_node 50 0) 0 = Ok (Some 0)) as Hwin
    by reflexivity.
  split; [exact Hwin |].
  exact (proj2 (winning_distance (Stub.at_node 50 0) 0 0 Hwin)).
Defined.

Lemma forfeiting_moves_witness :
  epd_am Stub.record_40 = Some [0; 3]
  ∧ ∀ move, move ∈ default [] (epd_am Stub.record_40)
            ↔ move ∈ legal_moves (Stub.at_node 40 90)
              ∧ classify (Stub.at_node 40 90) move = Ok None.
Proof.
  split; [reflexivity |].
  exact (proj1 (forfeiting_moves Stub.kqk (Stub.at_node 40 90) _ _
                  (stub_undo _) annotate_node_40)).
Defined.

Lemma annotation_order_witness :
  ∃ best, best_child (Stub.at_node 40 90) best
          ∧ epd_bm Stub.record_40
            = filter (λ move, classify (Stub.at_node 40 90) move
                              = Ok (Some best))
                     (legal_moves (Stub.at_node 40 90))
          ∧ default [] (epd_am Stub.record_40)
            = filter (λ move, classify (Stub.at_node 40 90) move = Ok None)
                     (legal_moves (Stub.at_node 40 90)).
Proof.
  exact (annotation_order Stub.kqk (Stub.at_node 40 90) _ _
           (stub_undo _) stub_moves_40_NoDup annotate_node_40).
Defined.

Lemma mate_in_one_witness :
  probe_dtm (Stub.at_node 50 0) = 1
  ∧ epd_dm stub_record_50 = 1
  ∧ epd_R50 stub_record_50 = false
  ∧ ∀ move, move ∈ epd_bm stub_record_50
            ↔ move ∈ legal_moves (Stub.at_node 50 0)
              ∧ mates (Stub.at_node 50 0) move.
Proof.
  apply (mate_in_one Stub.kqk (Stub.at_node 50 0) _ _
           (stub_undo _) annotate_node_50).
  exists 0. split.
  - change (0 ∈ [0; 1]). by left.
  - split; reflexivity.
Defined.

Lemma repeated_draw_rejected_witness :
  (loop_body Stub.kqk stub_draw_176).2 = Some (Stub.at_node 176 0)
  ∧ loop_body (loop_body Stub.kqk stub_draw_176).1 stub_draw_176
    = (count "duplicate" (loop_body Stub.kqk stub_draw_176).1, None).
Proof.
  assert (loop_body Stub.kqk stub_draw_176
          = ((loop_body Stub.kqk stub_draw_176).1, Some (Stub.at_node 176 0)))
    as Hyield by (vm_compute; reflexivity).
  split; [by rewrite Hyield |].
  exact (repeated_draw_rejected Stub.kqk stub_draw_176 _ _ Hyield).
Defined.

Lemma record_ids_consecutive_witness :
  epd_id (mkEpdInfo (Move := Z) "KQk.2" (Some 90) [0] (Some [1]) 5 false)
  = Stub.id_format (str "KQk") 2.
Proof.
  apply (record_ids_consecutive 2 Stub.kqk Stub.tape 1 (Stub.at_node 160 90)).
  by rewrite stub_generate_epd.
Defined.


Lemma records_sound_witness :
  confirmed_won (Stub.at_node 160 90)
  ∧ epd_hmvc (mkEpdInfo (Move := Z) "KQk.2" (Some 90) [0] (Some [1]) 5 false)
    = Some 90.
Proof.
  assert ((Stub.at_node 160 90,
           mkEpdInfo "KQk.2" (Some 90) [0] (Some [1]) 5 false)
          ∈ (generate_epd 2 Stub.kqk Stub.tape).1) as Hin.
  { rewrite stub_generate_epd. right. left. }
  destruct (records_sound 2 Stub.kqk Stub.tape _ _
              stub_undo stub_tape_randint_ok stub_dtz_ignores_clock Hin)
    as (Hwon & _).
  split; [exact Hwon | reflexivity].
Defined.
